(** * Verification of the Mocha runner of test-at-scale-js

    Shallow embedding of [packages/mocha-runner/src/mocha-runner.ts]:
    the identifier scheme (an MD5 hex digest over the repository id and
    the chain of qualified names), the discovery walk
    [listTestsAndTestSuites], the locator filter [filterSpecs], one
    execution pass [execute] and the pass coordinator [executeTests].

    JavaScript strings are modelled by their UTF-8 byte sequence (a
    [string] of 8-bit characters), which is what [hash.update(str)]
    feeds to the digest; [Set<string>] is stdpp's [gset string]; arrays
    that are only appended to are lists. *)

From Stdlib Require Import ZArith List Ascii Lia Bool.
From stdpp Require Import base decidable option list gmap strings.
Import ListNotations.

Local Open Scope Z_scope.

(** ** MD5 (RFC 1321), as computed by
    [crypto.createHash("md5").update(s).digest("hex")] *)
Module MD5.

Definition add32 (x y : Z) : Z := (x + y) mod 2 ^ 32.

Definition rotl32 (x n : Z) : Z :=
  Z.lor (Z.shiftl x n mod 2 ^ 32) (Z.shiftr x (32 - n)).

Definition not32 (x : Z) : Z := Z.lxor x 0xffffffff.

(** Per-round left-rotation amounts. *)
Definition shifts : list Z :=
  [7; 12; 17; 22; 7; 12; 17; 22; 7; 12; 17; 22; 7; 12; 17; 22;
   5; 9; 14; 20; 5; 9; 14; 20; 5; 9; 14; 20; 5; 9; 14; 20;
   4; 11; 16; 23; 4; 11; 16; 23; 4; 11; 16; 23; 4; 11; 16; 23;
   6; 10; 15; 21; 6; 10; 15; 21; 6; 10; 15; 21; 6; 10; 15; 21].

(** [K i = floor (2^32 * abs (sin (i + 1)))]. *)
Definition K : list Z :=
  [0xd76aa478; 0xe8c7b756; 0x242070db; 0xc1bdceee;
   0xf57c0faf; 0x4787c62a; 0xa8304613; 0xfd469501;
   0x698098d8; 0x8b44f7af; 0xffff5bb1; 0x895cd7be;
   0x6b901122; 0xfd987193; 0xa679438e; 0x49b40821;
   0xf61e2562; 0xc040b340; 0x265e5a51; 0xe9b6c7aa;
   0xd62f105d; 0x02441453; 0xd8a1e681; 0xe7d3fbc8;
   0x21e1cde6; 0xc33707d6; 0xf4d50d87; 0x455a14ed;
   0xa9e3e905; 0xfcefa3f8; 0x676f02d9; 0x8d2a4c8a;
   0xfffa3942; 0x8771f681; 0x6d9d6122; 0xfde5380c;
   0xa4beea44; 0x4bdecfa9; 0xf6bb4b60; 0xbebfbc70;
   0x289b7ec6; 0xeaa127fa; 0xd4ef3085; 0x04881d05;
   0xd9d4d039; 0xe6db99e5; 0x1fa27cf8; 0xc4ac5665;
   0xf4292244; 0x432aff97; 0xab9423a7; 0xfc93a039;
   0x655b59c3; 0x8f0ccc92; 0xffeff47d; 0x85845dd1;
   0x6fa87e4f; 0xfe2ce6e0; 0xa3014314; 0x4e0811a1;
   0xf7537e82; 0xbd3af235; 0x2ad7d2bb; 0xeb86d391].

Definition nthZ (l : list Z) (i : Z) : Z := nth (Z.to_nat i) l 0.

(** The four working registers. *)
Record regs := Regs { rA : Z; rB : Z; rC : Z; rD : Z }.

Definition init : regs :=
  Regs 0x67452301 0xefcdab89 0x98badcfe 0x10325476.

(** One of the 64 operations on a 16-word block [m]. *)
Definition step (m : list Z) (r : regs) (i : Z) : regs :=
  let '(Regs a b c d) := r in
  let '(f, g) :=
    if i <? 16 then (Z.lor (Z.land b c) (Z.land (not32 b) d), i)
    else if i <? 32 then (Z.lor (Z.land d b) (Z.land (not32 d) c), (5 * i + 1) mod 16)
    else if i <? 48 then (Z.lxor (Z.lxor b c) d, (3 * i + 5) mod 16)
    else (Z.lxor c (Z.lor b (not32 d)), (7 * i) mod 16) in
  let f' := add32 (add32 (add32 f a) (nthZ K i)) (nthZ m g) in
  Regs d (add32 b (rotl32 f' (nthZ shifts i))) b c.

Definition rounds : list Z := map Z.of_nat (seq 0 64).

Definition compress (r : regs) (m : list Z) : regs :=
  let '(Regs a b c d) := fold_left (step m) rounds r in
  Regs (add32 (rA r) a) (add32 (rB r) b) (add32 (rC r) c) (add32 (rD r) d).

(** Little-endian bytes of a [k]-byte word. *)
Fixpoint le_bytes (k : nat) (x : Z) : list Z :=
  match k with
  | O => []
  | S k' => x mod 256 :: le_bytes k' (x / 256)
  end.

Definition pad (msg : list Z) : list Z :=
  let len := Z.of_nat (length msg) in
  msg ++ [0x80] ++ repeat 0 (Z.to_nat ((55 - len) mod 64)) ++ le_bytes 8 (8 * len).

(** Little-endian 32-bit words of a byte sequence; [fuel] bounds the
    number of words. *)
Fixpoint words (fuel : nat) (bs : list Z) : list Z :=
  match fuel, bs with
  | S n, b0 :: b1 :: b2 :: b3 :: rest =>
      (b0 + 256 * (b1 + 256 * (b2 + 256 * b3))) :: words n rest
  | _, _ => []
  end.

Fixpoint blocks (fuel : nat) (ws : list Z) : list (list Z) :=
  match fuel, ws with
  | S n, _ :: _ => firstn 16 ws :: blocks n (skipn 16 ws)
  | _, _ => []
  end.

Definition digest (msg : list Z) : regs :=
  let p := pad msg in
  let ws := words (length p) p in
  fold_left compress (blocks (length ws) ws) init.

Definition hexdigit (n : Z) : ascii :=
  nth (Z.to_nat n)
    ["0"; "1"; "2"; "3"; "4"; "5"; "6"; "7"; "8"; "9";
     "a"; "b"; "c"; "d"; "e"; "f"]%char "0"%char.

Definition hexbyte (b : Z) : string :=
  String (hexdigit (b / 16)) (String (hexdigit (b mod 16)) EmptyString).

Definition hexword (x : Z) : string :=
  fold_right (fun b acc => String.append (hexbyte b) acc) EmptyString (le_bytes 4 x).

Definition bytes_of_string (s : string) : list Z :=
  map (fun c => Z.of_N (N_of_ascii c)) (String.list_ascii_of_string s).

Definition md5hex (s : string) : string :=
  let '(Regs a b c d) := digest (bytes_of_string s) in
  String.append (hexword a)
    (String.append (hexword b) (String.append (hexword c) (hexword d))).

End MD5.

Local Close Scope Z_scope.

(** ** JavaScript string and array helpers *)

(** The line feed ["\n"]. *)
Definition nl : string := String "010"%char EmptyString.

(** [Array.prototype.join]. *)
Fixpoint join (sep : string) (xs : list string) : string :=
  match xs with
  | [] => ""
  | [x] => x
  | x :: rest => x +:+ sep +:+ join sep rest
  end.

(** What [join] puts before and after an element: the elements before
    it, each followed by the separator, and the separator followed by
    the joined elements after it, if there are any. *)
Fixpoint lead (sep : string) (xs : list string) : string :=
  match xs with
  | [] => ""
  | x :: rest => x +:+ sep +:+ lead sep rest
  end.

Definition trail (sep : string) (xs : list string) : string :=
  match xs with
  | [] => ""
  | _ :: _ => sep +:+ join sep xs
  end.

(** A name without a line feed. *)
Fixpoint newlineFree (s : string) : Prop :=
  match s with
  | EmptyString => True
  | String c rest => c <> "010"%char /\ newlineFree rest
  end.

(** Two different inputs with the same digest. *)
Definition md5Collision (x y : string) : Prop :=
  x <> y /\ MD5.md5hex x = MD5.md5hex y.

(** [x ?? ""] on an optional string. *)
Definition orEmpty (x : option string) : string := default "" x.

(** ** Identifiers

    The expression
    [crypto.createHash("md5").update(repoID + "\n" + names.join("\n")).digest("hex")]
    that the walker uses for a suite's id, for a suite's parent id and
    for a test's suite id. *)
Definition digestInput (scopeId : string) (names : list string) : string :=
  scopeId +:+ nl +:+ join nl names.

Definition identify (scopeId : string) (names : list string) : string :=
  MD5.md5hex (digestInput scopeId names).

(** The expression of a test's own id:
    [repoID + "\n" + suiteIdentifiers.join("\n") + "\n" + testIdentifier]. *)
Definition testDigestInput (scopeId : string) (suiteIdentifiers : list string)
    (testIdentifier : string) : string :=
  ((scopeId +:+ nl) +:+ join nl suiteIdentifiers) +:+ nl +:+ testIdentifier.

Definition identifyTest (scopeId : string) (suiteIdentifiers : list string)
    (testIdentifier : string) : string :=
  MD5.md5hex (testDigestInput scopeId suiteIdentifiers testIdentifier).

(** ** The engine's suite tree ([Mocha.Suite], [Mocha.Test])

    [file] is optional in Mocha's types; [tests] and [suites] are
    arrays, but [filterSpecs] guards against their absence, so they are
    optional here and iterating an absent one throws. *)
Record MochaTest := MkTest {
  test_title : string;
  test_file : option string
}.

#[warning="-register-all"]
Inductive Suite := MkSuite {
  suite_title : string;
  suite_file : option string;
  suite_tests : option (list MochaTest);
  suite_suites : option (list Suite)
}.

(** Induction over the tree with the hypothesis for every child. *)
Fixpoint Suite_tree_ind (P : Suite -> Prop)
    (Hleaf : forall t f ts, P (MkSuite t f ts None))
    (Hnode : forall t f ts cs, Forall P cs -> P (MkSuite t f ts (Some cs)))
    (s : Suite) {struct s} : P s :=
  match s with
  | MkSuite t f ts None => Hleaf t f ts
  | MkSuite t f ts (Some cs) =>
      Hnode t f ts cs
        ((fix all (l : list Suite) : Forall P l :=
            match l with
            | [] => @List.Forall_nil Suite P
            | c :: l' =>
                @List.Forall_cons Suite P c l' (Suite_tree_ind P Hleaf Hnode c) (all l')
            end) cs)
  end.

(** ** The collaborators from [@lambdatest/test-at-scale-core] and
    [./helper] that the runner calls but does not define. *)
Class Core := {
  Locator : Type;
  (** [Util.getLocator(filename, ancestorTitles, title)] *)
  getLocator : string -> list string -> string -> Locator;
  (** [locator.toString()] *)
  locatorToString : Locator -> string;
  (** [Util.isBlocklistedLocator(locator)] *)
  isBlocklistedLocator : Locator -> bool;
  (** [Util.getIdentifier(filename, name)] *)
  getIdentifier : string -> string -> string;
  (** [path.relative(Util.REPO_ROOT, filename)] *)
  relativeToRepoRoot : string -> string;
  (** [process.env.REPO_ID] and [process.env.COMMIT_ID] *)
  repoID : string;
  commitID : string
}.

(** ** Discovery *)
Section Discovery.
Context {core : Core}.

(** [TestSuite(id, name, parentSuiteID)] *)
Record TestSuite := MkTestSuite {
  ts_id : string;
  ts_name : string;
  ts_parentSuiteID : option string
}.

(** [Test(id, name, title, suiteID, commitID, filepath, locator)] *)
Record Test := MkTestNode {
  t_id : string;
  t_name : string;
  t_title : string;
  t_suiteID : option string;
  t_commitID : string;
  t_filepath : string;
  t_locator : Locator
}.

(** The two output arrays [testSuites] and [tests] are only pushed to;
    they are kept as one log in emission order, of which each array is
    a projection. *)
Inductive Emit :=
| EmitSuite (n : TestSuite)
| EmitTest (n : Test).

Record WState := MkWState {
  emitted : list Emit;
  ancestorTitles : list string
}.

Definition testSuitesOf (log : list Emit) : list TestSuite :=
  omap (fun e => match e with EmitSuite n => Some n | _ => None end) log.

Definition testsOf (log : list Emit) : list Test :=
  omap (fun e => match e with EmitTest n => Some n | _ => None end) log.

(** How a call ends: normally, or with the [TypeError] of iterating an
    absent array. *)
Inductive Outcome := Ok | Throw.

(** Lines 197-209: the node of a child suite, with [ancestorTitles]
    already holding its title. *)
Definition newTestSuite (filename : string) (titles : list string) (title : string)
    : TestSuite :=
  let suiteIdentifier := getIdentifier filename title in
  let suiteIdentifiers := map (getIdentifier filename) titles in
  let parentSuiteIdentifiers := removelast suiteIdentifiers in
  MkTestSuite (identify repoID suiteIdentifiers) suiteIdentifier
    (match parentSuiteIdentifiers with
     | [] => None
     | _ :: _ => Some (identify repoID parentSuiteIdentifiers)
     end).

(** Lines 216-235: the node of a test. *)
Definition newTest (titles : list string) (mochaTest : MochaTest) : Test :=
  let filename := orEmpty (test_file mochaTest) in
  let testIdentifier := getIdentifier filename (test_title mochaTest) in
  let suiteIdentifiers := map (getIdentifier filename) titles in
  MkTestNode (identifyTest repoID suiteIdentifiers testIdentifier)
    testIdentifier (test_title mochaTest)
    (match suiteIdentifiers with
     | [] => None
     | _ :: _ => Some (identify repoID suiteIdentifiers)
     end)
    commitID (relativeToRepoRoot filename)
    (getLocator filename titles (test_title mochaTest)).

(** Lines 192-210: push the title, build and push the suite node. *)
Definition enterSuite (childSuite : Suite) (st : WState) : WState :=
  let filename := orEmpty (suite_file childSuite) in
  let titles := ancestorTitles st ++ [suite_title childSuite] in
  MkWState (emitted st ++ [EmitSuite (newTestSuite filename titles (suite_title childSuite))])
    titles.

(** Line 212: [ancestorTitles.pop()]. *)
Definition popTitle (st : WState) : WState :=
  MkWState (emitted st) (removelast (ancestorTitles st)).

(** Line 236, one iteration of the loop over [currentSuite.tests]. *)
Definition emitTest (st : WState) (mochaTest : MochaTest) : WState :=
  MkWState (emitted st ++ [EmitTest (newTest (ancestorTitles st) mochaTest)])
    (ancestorTitles st).

(** A [for ... of] loop whose body may throw: the first throw leaves
    the loop with the state as it is. *)
Fixpoint forEachSuite (body : Suite -> WState -> WState * Outcome)
    (cs : list Suite) (st : WState) : WState * Outcome :=
  match cs with
  | [] => (st, Ok)
  | c :: rest =>
      match body c st with
      | (st', Ok) => forEachSuite body rest st'
      | (st', Throw) => (st', Throw)
      end
  end.

(** [listTestsAndTestSuites(currentSuite, tests, testSuites,
    ancestorTitles)], lines 182-238, on the log and the stack. *)
Fixpoint listTestsAndTestSuites (currentSuite : Suite) (st : WState)
    : WState * Outcome :=
  match currentSuite with
  | MkSuite _ _ tests suites =>
      match suites with
      | None => (st, Throw)
      | Some cs =>
          match
            forEachSuite
              (fun childSuite st0 =>
                 match listTestsAndTestSuites childSuite (enterSuite childSuite st0) with
                 | (st1, Ok) => (popTitle st1, Ok)
                 | (st1, Throw) => (st1, Throw)
                 end) cs st
          with
          | (st', Throw) => (st', Throw)
          | (st', Ok) =>
              match tests with
              | None => (st', Throw)
              | Some ts => (fold_left emitTest ts st', Ok)
              end
          end
      end
  end.

(** Lines 192-212, the body of the loop over [currentSuite.suites]:
    the function that [listTestsAndTestSuites] iterates. *)
Definition walkChild (childSuite : Suite) (st : WState) : WState * Outcome :=
  match listTestsAndTestSuites childSuite (enterSuite childSuite st) with
  | (st1, Ok) => (popTitle st1, Ok)
  | (st1, Throw) => (st1, Throw)
  end.

(** Line 81: the walk of [discoverTests], from the root suite with
    empty output arrays and the default empty [ancestorTitles]. *)
Definition discover (root : Suite) : WState * Outcome :=
  listTestsAndTestSuites root (MkWState [] []).

End Discovery.

(** ** Results *)

(** [TestStatus] of the core package. *)
Inductive TestStatus := Passed | Failed | Skipped | BlockListed.

Section Results.
Context {core : Core}.

(** Modelled from the spec: [TestResult] and [TestSuiteResult] are
    declared in the core package, which is not part of the sources; a
    result carries the identity of its test or suite (title and locator)
    and a status. Timestamps and durations are left out. *)
Record TestResult := MkTestResult {
  tr_title : string;
  tr_locator : Locator;
  tr_status : TestStatus
}.

Record TestSuiteResult := MkTestSuiteResult {
  sr_title : string;
  sr_locator : Locator;
  sr_status : TestStatus
}.

(** Modelled from the spec: [MochaHelper.transformMochaTestAsTestResult]
    and [MochaHelper.transformMochaSuiteAsSuiteResult] live in
    [./helper], which is not part of the sources. The result is stamped
    with the given status and with the locator of the node, built from
    its file, the titles of its ancestor suites from the top down (what
    [MochaHelper.getParentSuites] collects through the [parent] links,
    reversed) and its title. *)
Definition transformMochaTestAsTestResult (parentSuites : list string)
    (test : MochaTest) (status : TestStatus) : TestResult :=
  MkTestResult (test_title test)
    (getLocator (orEmpty (test_file test)) parentSuites (test_title test)) status.

Definition transformMochaSuiteAsSuiteResult (parentSuites : list string)
    (suite : Suite) (status : TestStatus) : TestSuiteResult :=
  MkTestSuiteResult (suite_title suite)
    (getLocator (orEmpty (suite_file suite)) parentSuites (suite_title suite)) status.

(** [ExecutionResult(testResults, testSuiteResults)]: the report of one pass. *)
Record ExecutionResult := MkExecutionResult {
  testResults : list TestResult;
  testSuiteResults : list TestSuiteResult
}.

(** The private fields of [MochaRunner] (lines 32-35). *)
Record RunnerState := MkRunnerState {
  blocklistedTests : list TestResult;
  blockListedLocators : gset string;
  blocklistedSuites : list TestSuiteResult;
  testlocator : gset string
}.

(** [new MochaRunner()]. *)
Definition newRunner : RunnerState := MkRunnerState [] ∅ [] ∅.

(** ** The locator filter *)

(** Lines 273-274 and 281-282. *)
Definition recordBlocklistedTest (testResult : TestResult) (st : RunnerState)
    : RunnerState :=
  MkRunnerState (blocklistedTests st ++ [testResult])
    ({[locatorToString (tr_locator testResult)]} ∪ blockListedLocators st)
    (blocklistedSuites st) (testlocator st).

(** Line 303. *)
Definition recordBlocklistedSuite (suiteResult : TestSuiteResult) (st : RunnerState)
    : RunnerState :=
  MkRunnerState (blocklistedTests st) (blockListedLocators st)
    (blocklistedSuites st ++ [suiteResult]) (testlocator st).

(** Lines 256-286: the body of the loop over [suite.tests], on the
    pair of [filteredTests] and the runner's fields. *)
Definition filterTest (parentSuites : list string)
    (acc : list MochaTest * RunnerState) (test : MochaTest)
    : list MochaTest * RunnerState :=
  let '(filteredTests, st) := acc in
  let filename := orEmpty (test_file test) in
  let locator := getLocator filename parentSuites (test_title test) in
  let blockListed := isBlocklistedLocator locator in
  let testResult := transformMochaTestAsTestResult parentSuites test BlockListed in
  if bool_decide (0 < size (testlocator st)) then
    if bool_decide (locatorToString locator ∈ testlocator st) then
      if negb blockListed then (filteredTests ++ [test], st)
      else (filteredTests, recordBlocklistedTest testResult st)
    else (filteredTests, st)
  else
    if blockListed then (filteredTests, recordBlocklistedTest testResult st)
    else (filteredTests ++ [test], st).

(** Lines 253-289. *)
Definition filterTests (parentSuites : list string) (tests : option (list MochaTest))
    (st : RunnerState) : option (list MochaTest) * RunnerState :=
  match tests with
  | Some ts =>
      let '(filteredTests, st') := fold_left (filterTest parentSuites) ts ([], st) in
      (Some filteredTests, st')
  | None => (None, st)
  end.

(** Lines 292-304: the blocklist check of a child suite. *)
Definition checkSuite (parentSuites : list string) (childSuite : Suite)
    (st : RunnerState) : RunnerState :=
  let filename := orEmpty (suite_file childSuite) in
  let locator := getLocator filename parentSuites (suite_title childSuite) in
  if isBlocklistedLocator locator then
    recordBlocklistedSuite
      (transformMochaSuiteAsSuiteResult parentSuites childSuite BlockListed) st
  else st.

(** The loop over [suite.suites]; the children are pruned in place, so
    the loop yields the children as they are afterwards. *)
Fixpoint forEachChild (body : Suite -> RunnerState -> Suite * RunnerState)
    (cs : list Suite) (st : RunnerState) : list Suite * RunnerState :=
  match cs with
  | [] => ([], st)
  | c :: rest =>
      let '(c', st1) := body c st in
      let '(rest', st2) := forEachChild body rest st1 in
      (c' :: rest', st2)
  end.

(** [filterSpecs(suite)]. [parentSuites] holds the titles of the suites
    from the top down to [suite] itself, the root left out: the chain
    that [MochaHelper.getParentSuites] yields for the tests of [suite].
    The function returns the suite as pruned in place. *)
Fixpoint filterSpecs (parentSuites : list string) (suite : Suite) (st : RunnerState)
    : Suite * RunnerState :=
  match suite with
  | MkSuite title file tests suites =>
      let '(tests', st1) := filterTests parentSuites tests st in
      match suites with
      | Some cs =>
          let '(cs', st2) :=
            forEachChild
              (fun childSuite st0 =>
                 filterSpecs (parentSuites ++ [suite_title childSuite]) childSuite
                   (checkSuite parentSuites childSuite st0)) cs st1 in
          (MkSuite title file tests' (Some cs'), st2)
      | None => (MkSuite title file tests' None, st1)
      end
  end.

(** [Mocha.Runner.prototype.run] under [n] wrappers of lines 246-249,
    up to the call of the native [run]: each wrapper filters
    [this.suite] and then calls the function that it has replaced. *)
Fixpoint wrappedRun (n : nat) (suite : Suite) (st : RunnerState)
    : Suite * RunnerState :=
  match n with
  | O => (suite, st)
  | S n' =>
      let '(suite', st') := filterSpecs [] suite st in
      wrappedRun n' suite' st'
  end.

End Results.

(** ** Execution passes *)

(** What a pass or a command can throw. *)
Inductive Thrown :=
| MochaInstanceError
| ValidationError
| DependencyError
| LoadError
| TypeError
| DisposeError
| LocatorFileError
| RunnerException (stack : string)
| PostError (stack : string)
| CommandNotProvided
| UnknownCommand.

(** The engine and the remaining collaborators of [execute]. A [bool]
    tells whether a call returns ([true]) or throws; an [option] is
    [None] when the call throws. *)
Class Engine {core : Core} := {
  (** whatever the engine's behaviour depends on from pass to pass *)
  World : Type;
  (** [this.createMochaInstance()], lines 37-50: it reads the arguments
      and the options of the process, which no pass changes *)
  createMochaInstance : bool;
  (** [glob.sync(testFilesGlob).map(file => path.resolve(file))] *)
  resolveGlob : list string -> list string;
  (** [Util.getFilesFromTestLocators(locators)] *)
  getFilesFromTestLocators : gset string -> list string;
  (** the root suite that [mocha.run] builds from the added files
      before the patched [Runner.run] is entered; [None] when loading
      them throws *)
  loadFiles : World -> list string -> option Suite;
  (** [originalRun] on the pruned tree, which is taken to call back:
      the test and suite results that the reporter collected, and the
      world afterwards *)
  runSuite : World -> Suite -> list TestResult * list TestSuiteResult * World;
  (** [mocha.dispose()], line 138 *)
  dispose : World -> bool;
  (** [Util.handleDuplicateTests(results)], as a function of the array *)
  handleDuplicateTests : list TestResult -> list TestResult;
  (** [Util.filterTestResultsByTestLocator(results, locators, blocklisted)] *)
  filterTestResultsByTestLocator :
    list TestResult -> gset string -> gset string -> list TestResult
}.

Section Execution.
Context {core : Core} {engine : Engine}.

(** Line 104: [this._testlocator = new Set<string>(locators)]. *)
Definition setTestlocator (locators : list string) (st : RunnerState) : RunnerState :=
  MkRunnerState (blocklistedTests st) (blockListedLocators st) (blocklistedSuites st)
    (list_to_set locators).

(** The state of the process between passes: the world of the engine,
    the fields of the runner, and the number of wrappers that
    [extendNativeRunner] has put around [Mocha.Runner.prototype.run],
    which belongs to the module and outlives the engine instances. *)
Record Process := MkProcess {
  world : World;
  fields : RunnerState;
  wrappers : nat
}.

(** The process at its start, with a new runner. *)
Definition newProcess (w : World) : Process := MkProcess w newRunner 0.

(** [execute(testFilesGlob, locators)], lines 100-140: the result of
    the pass or what it throws, and the process as the call leaves it.
    Line 101 creates the engine instance; line 106 wraps
    [Runner.prototype.run] once more; [mocha.run] loads the files and
    enters the outermost wrapper with their root suite; line 138
    disposes of the instance before the result is returned. Nothing is
    caught: a throw leaves the fields as they are at that point. *)
Definition execute (testFilesGlob locators : list string) (p : Process)
    : (ExecutionResult + Thrown) * Process :=
  if negb createMochaInstance then (inr MochaInstanceError, p)
  else
    let st0 := setTestlocator locators (fields p) in
    let n := S (wrappers p) in
    let testFilesToProcessList :=
      if bool_decide (size (testlocator st0) = 0) then resolveGlob testFilesGlob
      else getFilesFromTestLocators (testlocator st0) in
    match loadFiles (world p) testFilesToProcessList with
    | None => (inr LoadError, MkProcess (world p) st0 n)
    | Some root =>
        let '(pruned, st1) := wrappedRun n root st0 in
        let '(engineTests, engineSuites, w') := runSuite (world p) pruned in
        let results := handleDuplicateTests (engineTests ++ blocklistedTests st1) in
        let suiteResults := engineSuites ++ blocklistedSuites st1 in
        let results' :=
          if bool_decide (0 < size (testlocator st1))
          then filterTestResultsByTestLocator results (testlocator st1)
                 (blockListedLocators st1)
          else results in
        if dispose w' then (inl (MkExecutionResult results' suiteResults), MkProcess w' st1 n)
        else (inr DisposeError, MkProcess w' st1 n)
    end.

(** An element of [Util.createLocatorSet(...)]. *)
Record LocatorSet := MkLocatorSet {
  numberofexecutions : Z;
  locators : list string
}.

(** Modelled from the spec: [ExecutionResults] is declared in the core
    package, which is not part of the sources; the report is the ordered
    sequence of the pass results pushed into it. *)
Definition ExecutionResults := list ExecutionResult.

Definition push (executionResults : ExecutionResults) (result : ExecutionResult)
    : ExecutionResults :=
  executionResults ++ [result].

(** Lines 165-168: [for (let i=1; i<=set.numberofexecutions; i++)], as
    the number of iterations still to go. A pass that throws ends the
    loop, and [executeTests] with it. *)
Fixpoint executeTimes (n : nat) (testFilesGlob locators : list string)
    (executionResults : ExecutionResults) (p : Process)
    : (ExecutionResults + Thrown) * Process :=
  match n with
  | O => (inl executionResults, p)
  | S n' =>
      match execute testFilesGlob locators p with
      | (inl result, p') =>
          executeTimes n' testFilesGlob locators (push executionResults result) p'
      | (inr e, p') => (inr e, p')
      end
  end.

(** Line 164, the loop over the locator sets. *)
Fixpoint executeSets (testFilesGlob : list string) (sets : list LocatorSet)
    (executionResults : ExecutionResults) (p : Process)
    : (ExecutionResults + Thrown) * Process :=
  match sets with
  | [] => (inl executionResults, p)
  | set :: rest =>
      match
        executeTimes (Z.to_nat (numberofexecutions set)) testFilesGlob (locators set)
          executionResults p
      with
      | (inl executionResults', p') => executeSets testFilesGlob rest executionResults' p'
      | (inr e, p') => (inr e, p')
      end
  end.

(** [executeTests], lines 161-174. [locatorSet] is [Some] of the sets
    read from the locator file when one is given, [None] otherwise. *)
Definition executeTests (testFilesGlob : list string)
    (locatorSet : option (list LocatorSet)) (p : Process)
    : (ExecutionResults + Thrown) * Process :=
  match locatorSet with
  | Some sets => executeSets testFilesGlob sets [] p
  | None =>
      match execute testFilesGlob [] p with
      | (inl result, p') => (inl (push [] result), p')
      | (inr e, p') => (inr e, p')
      end
  end.

End Execution.

(** ** Vocabulary of the properties *)

(** The three dispositions of a test under the filter. *)
Inductive Disposition := Include | Blocked | Excluded.

#[global] Instance Disposition_eq_dec : EqDecision Disposition.
Proof. solve_decision. Defined.

Section Vocabulary.
Context {core : Core}.

(** The branch of lines 267-286 that a test takes, as a function of the
    explicit selection and of the test's place in the tree. *)
Definition disposition (selection : gset string) (parentSuites : list string)
    (test : MochaTest) : Disposition :=
  let locator :=
    getLocator (orEmpty (test_file test)) parentSuites (test_title test) in
  if bool_decide (0 < size selection) then
    if bool_decide (locatorToString locator ∈ selection) then
      if isBlocklistedLocator locator then Blocked else Include
    else Excluded
  else if isBlocklistedLocator locator then Blocked else Include.

(** Every test of a tree with the titles of its ancestor suites, the
    tests of a suite before those of its child suites. *)
Fixpoint allTests (parentSuites : list string) (suite : Suite)
    : list (list string * MochaTest) :=
  match suite with
  | MkSuite _ _ tests suites =>
      map (pair parentSuites) (default [] tests) ++
      match suites with
      | Some cs => flat_map (fun c => allTests (parentSuites ++ [suite_title c]) c) cs
      | None => []
      end
  end.

(** Every suite below the top of a tree with the titles of its ancestor
    suites, a suite before its descendants. *)
Fixpoint allSuites (parentSuites : list string) (suite : Suite)
    : list (list string * Suite) :=
  match suite with
  | MkSuite _ _ _ suites =>
      match suites with
      | Some cs =>
          flat_map
            (fun c => (parentSuites, c) :: allSuites (parentSuites ++ [suite_title c]) c) cs
      | None => []
      end
  end.

Definition locatorOfTest (pt : list string * MochaTest) : Locator :=
  getLocator (orEmpty (test_file pt.2)) pt.1 (test_title pt.2).

Definition locatorOfSuite (ps : list string * Suite) : Locator :=
  getLocator (orEmpty (suite_file ps.2)) ps.1 (suite_title ps.2).

Definition blocklistedResult (pt : list string * MochaTest) : TestResult :=
  transformMochaTestAsTestResult pt.1 pt.2 BlockListed.

Definition blocklistedSuiteResult (ps : list string * Suite) : TestSuiteResult :=
  transformMochaSuiteAsSuiteResult ps.1 ps.2 BlockListed.

(** The tests of a tree with a given disposition, and the blocklisted
    suites of a tree. *)
Definition testsWith (d : Disposition) (selection : gset string)
    (parentSuites : list string) (suite : Suite) : list (list string * MochaTest) :=
  filter (fun pt => disposition selection pt.1 pt.2 = d) (allTests parentSuites suite).

Definition blockedSuites (parentSuites : list string) (suite : Suite)
    : list (list string * Suite) :=
  filter (fun ps => isBlocklistedLocator (locatorOfSuite ps) = true)
    (allSuites parentSuites suite).

(** [st'] is [st] with the given results appended to the two
    accumulators of blocklisted results, the selection untouched. *)
Definition extends (st : RunnerState) (tests : list TestResult)
    (suites : list TestSuiteResult) (st' : RunnerState) : Prop :=
  blocklistedTests st' = blocklistedTests st ++ tests /\
  blocklistedSuites st' = blocklistedSuites st ++ suites /\
  testlocator st' = testlocator st.

(** What a blocklisted suite result is made of: the ancestor titles,
    the title and the file of the suite. *)
Definition suiteKey (ps : list string * Suite) : list string * string * option string :=
  (ps.1, suite_title ps.2, suite_file ps.2).

(** What [filterSpecs] does to a tree, in terms of the dispositions of
    its tests and of its blocklisted suites. *)
Definition filterSpecs_effect (s : Suite) : Prop :=
  forall parentSuites st,
    let r := filterSpecs parentSuites s st in
    (suite_title r.1 = suite_title s /\ suite_file r.1 = suite_file s) /\
    allTests parentSuites r.1 = testsWith Include (testlocator st) parentSuites s /\
    extends st
      (map blocklistedResult (testsWith Blocked (testlocator st) parentSuites s))
      (map blocklistedSuiteResult (blockedSuites parentSuites s)) r.2 /\
    map suiteKey (allSuites parentSuites r.1) = map suiteKey (allSuites parentSuites s).

(** The results recorded between two states of the runner. *)
Definition recordedTests (st st' : RunnerState) : list TestResult :=
  drop (length (blocklistedTests st)) (blocklistedTests st').

Definition recordedSuites (st st' : RunnerState) : list TestSuiteResult :=
  drop (length (blocklistedSuites st)) (blocklistedSuites st').


(** The output of a walk that meets no absent array: child suites
    first, each followed by its subtree, then the tests of the suite. *)
Fixpoint walkLog (titles : list string) (suite : Suite) : list Emit :=
  match suite with
  | MkSuite _ _ tests suites =>
      match suites with
      | Some cs =>
          flat_map
            (fun c =>
               let titles' := titles ++ [suite_title c] in
               EmitSuite (newTestSuite (orEmpty (suite_file c)) titles' (suite_title c))
                 :: walkLog titles' c) cs
      | None => []
      end ++
      map (fun t => EmitTest (newTest titles t)) (default [] tests)
  end.



(** The stack and the log after a call, by the way the call ends. *)
Definition walk_effect (walk : WState -> WState * Outcome) (log : list string -> list Emit)
    : Prop :=
  forall st,
    match walk st with
    | (st', Ok) =>
        ancestorTitles st' = ancestorTitles st /\
        emitted st' = emitted st ++ log (ancestorTitles st)
    | (st', Throw) =>
        exists extra, ancestorTitles st' = ancestorTitles st ++ extra
    end.



End Vocabulary.

Section Schedule.
Context {core : Core} {engine : Engine}.

(** The passes that the locator sets ask for, in order: the locators of
    a set once per requested execution. *)
Definition schedule (sets : list LocatorSet) : list (list string) :=
  flat_map (fun set => repeat (locators set) (Z.to_nat (numberofexecutions set))) sets.

(** The tree that a pass presents to the filter (lines 111-121), if the
    files load. *)
Definition loadedTree (testFilesGlob locators : list string) (w : World) : option Suite :=
  loadFiles w
    (if bool_decide (size (list_to_set (C:=gset string) locators) = 0)
     then resolveGlob testFilesGlob
     else getFilesFromTestLocators (list_to_set locators)).

(** The result of a pass with the selection [locators] over the loaded
    tree [root], in terms of the filter and of the engine: the engine
    runs the tree as the wrappers have pruned it; the test results are
    the engine's followed by the accumulated blocklisted tests,
    restricted to the selection when there is one; the suite results
    are the engine's followed by the accumulated blocklisted suites. *)
Definition passResult (locators : list string) (p : Process) (root : Suite)
    : ExecutionResult :=
  let f := wrappedRun (S (wrappers p)) root (setTestlocator locators (fields p)) in
  let run := runSuite (world p) f.1 in
  let results := handleDuplicateTests (run.1.1 ++ blocklistedTests f.2) in
  MkExecutionResult
    (if bool_decide (0 < size (list_to_set (C:=gset string) locators))
     then filterTestResultsByTestLocator results (list_to_set locators)
            (blockListedLocators f.2)
     else results)
    (run.1.2 ++ blocklistedSuites f.2).

(** The process after such a pass: the world as the engine leaves it,
    the fields as the filter leaves them, one wrapper more. *)
Definition afterPass (locators : list string) (p : Process) (root : Suite) : Process :=
  let f := wrappedRun (S (wrappers p)) root (setTestlocator locators (fields p)) in
  MkProcess (runSuite (world p) f.1).2 f.2 (S (wrappers p)).

(** [passesRun g passes p results p']: from the process [p], one pass
    per entry of [passes], in order and each from the process that the
    one before has left, creates its engine instance, loads its tree,
    runs it and disposes of the instance; [results] holds the result of
    each, in order, and [p'] is the process after the last. *)
Inductive passesRun (testFilesGlob : list string)
    : list (list string) -> Process -> list ExecutionResult -> Process -> Prop :=
| passesRun_nil p : passesRun testFilesGlob [] p [] p
| passesRun_cons locators passes p root results p' :
    createMochaInstance = true ->
    loadedTree testFilesGlob locators (world p) = Some root ->
    dispose (world (afterPass locators p root)) = true ->
    passesRun testFilesGlob passes (afterPass locators p root) results p' ->
    passesRun testFilesGlob (locators :: passes) p
      (passResult locators p root :: results) p'.

(** Sequential passes, one result pushed per pass, up to the first pass
    that throws. *)
Fixpoint runPasses (testFilesGlob : list string) (passes : list (list string))
    (executionResults : ExecutionResults) (p : Process)
    : (ExecutionResults + Thrown) * Process :=
  match passes with
  | [] => (inl executionResults, p)
  | locators :: rest =>
      match execute testFilesGlob locators p with
      | (inl result, p') => runPasses testFilesGlob rest (executionResults ++ [result]) p'
      | (inr e, p') => (inr e, p')
      end
  end.

End Schedule.

(** ** Concrete collaborators for the examples *)
Module Sample.

(** Modelled from the spec: the core package is not part of the
    sources. A locator is composed of the file, the ordered titles of
    the ancestor suites and the leaf title, and is serialized with
    ["##"] between the parts; [blocked] is the blocklist predicate on
    the serialization; a qualified name is the name followed by the file
    in parentheses. *)
Definition sampleCore (blocked : string -> bool) : Core := {|
  Locator := string * list string * string;
  getLocator filename ancestors title := (filename, ancestors, title);
  locatorToString l := join "##" (l.1.1 :: l.1.2 ++ [l.2]);
  isBlocklistedLocator l := blocked (join "##" (l.1.1 :: l.1.2 ++ [l.2]));
  getIdentifier filename name := name +:+ " (" +:+ filename +:+ ")";
  relativeToRepoRoot filename := filename;
  repoID := "repo-1";
  commitID := "c0ffee"
|}.

(** An engine that loads the same tree whatever the files, reports
    every test left in the tree as passed and reports no suite. *)
Definition sampleEngine (core : Core) (tree : Suite) : @Engine core := {|
  World := unit;
  createMochaInstance := true;
  resolveGlob patterns := patterns;
  getFilesFromTestLocators _ := [];
  loadFiles _ _ := Some tree;
  runSuite w pruned :=
    (map (fun pt => transformMochaTestAsTestResult pt.1 pt.2 Passed) (allTests [] pruned),
     [], w);
  dispose _ := true;
  handleDuplicateTests results := results;
  filterTestResultsByTestLocator results selection _ :=
    filter (fun r => locatorToString (tr_locator r) ∈ selection) results
|}.

(** Blocklists: nothing; the test "fails" of the suite "Login"; the
    suite "Login" with everything below it; the suite "Login" alone. *)
Definition nothingBlocked : Core := sampleCore (fun _ => false).
Definition failsBlocked : Core := sampleCore (String.prefix "a.js##Login##fails").
Definition loginBlocked : Core := sampleCore (String.prefix "a.js##Login").
Definition loginAloneBlocked : Core := sampleCore (String.eqb "a.js##Login").

(** A file [a.js] with a suite "Login" of two tests, and a top-level
    test "health check" of [b.js]. *)
Definition loginSuite : Suite :=
  MkSuite "Login" (Some "a.js")
    (Some [MkTest "succeeds" (Some "a.js"); MkTest "fails" (Some "a.js")])
    (Some []).

Definition tree : Suite :=
  MkSuite "" None (Some [MkTest "health check" (Some "b.js")]) (Some [loginSuite]).

Definition succeeds : list string * MochaTest :=
  (["Login"], MkTest "succeeds" (Some "a.js")).
Definition fails : list string * MochaTest :=
  (["Login"], MkTest "fails" (Some "a.js")).
Definition healthCheck : list string * MochaTest :=
  ([], MkTest "health check" (Some "b.js")).

Definition loginEngine : @Engine loginBlocked := sampleEngine loginBlocked tree.

(** A tree whose first child suite has no [suites] array. *)
Definition brokenSuite : Suite := MkSuite "A" (Some "a.js") (Some []) None.

Definition brokenTree : Suite :=
  MkSuite "" None (Some [])
    (Some [brokenSuite; MkSuite "B" (Some "a.js") (Some []) (Some [])]).

End Sample.

(** ** Further vocabulary: the walk *)
Section WalkVocabulary.
Context {core : Core}.

(** Every suite of the tree has its two arrays. *)
Fixpoint hasArrays (suite : Suite) : bool :=
  match suite with
  | MkSuite _ _ tests suites =>
      match suites with
      | Some cs => forallb hasArrays cs && bool_decide (is_Some tests)
      | None => false
      end
  end.

(** The node that the walk builds for a suite and for a test at a
    place of the tree. *)
Definition suiteNode (ps : list string * Suite) : TestSuite :=
  newTestSuite (orEmpty (suite_file ps.2)) (ps.1 ++ [suite_title ps.2]) (suite_title ps.2).

Definition testNode (pt : list string * MochaTest) : Test := newTest pt.1 pt.2.

(** Below the top of the tree, every child suite has the file of the
    suite that holds it. *)
Fixpoint sameSuiteFile (suite : Suite) : Prop :=
  match suite with
  | MkSuite _ file _ suites =>
      match suites with
      | Some cs =>
          (fix each (cs : list Suite) : Prop :=
             match cs with
             | [] => True
             | c :: rest =>
                 (orEmpty (suite_file c) = orEmpty file /\ sameSuiteFile c) /\ each rest
             end) cs
      | None => True
      end
  end.

Definition suiteFilesAgree (root : Suite) : Prop :=
  Forall sameSuiteFile (default [] (suite_suites root)).

(** Every suite node of the log with a parent id comes after a suite
    node of the log with that id. *)
Definition linked (log : list Emit) : Prop :=
  forall l1 n l2, log = l1 ++ EmitSuite n :: l2 ->
  forall i, ts_parentSuiteID n = Some i ->
  exists sn, In sn (testSuitesOf l1) /\ ts_id sn = i.

(** The node of the suite being walked is in the log already, and the
    child suites of the suite have its file; nothing is asked at the
    top of the tree. *)
Definition ownSuiteNode (s : Suite) (st : WState) : Prop :=
  ancestorTitles st = [] \/
  (Forall (fun c => orEmpty (suite_file c) = orEmpty (suite_file s))
     (default [] (suite_suites s)) /\
   exists sn, In sn (testSuitesOf (emitted st)) /\
     ts_id sn = identify repoID
                  (map (getIdentifier (orEmpty (suite_file s))) (ancestorTitles st))).

Definition walk_keeps_linked (s : Suite) : Prop :=
  forall st,
    linked (emitted st) ->
    Forall sameSuiteFile (default [] (suite_suites s)) ->
    ownSuiteNode s st ->
    linked (emitted (listTestsAndTestSuites s st).1).

(** A digit of lower-case hexadecimal notation. *)
Definition isHexDigit (c : ascii) : bool :=
  bool_decide (c ∈ ["0"; "1"; "2"; "3"; "4"; "5"; "6"; "7"; "8"; "9";
                     "a"; "b"; "c"; "d"; "e"; "f"]%char).

Fixpoint allHex (s : string) : bool :=
  match s with
  | EmptyString => true
  | String c rest => isHexDigit c && allHex rest
  end.

End WalkVocabulary.

(** ** Further vocabulary: the filter *)
Section FilterVocabulary.
Context {core : Core}.

(** [_blockListedLocators] holds the serialized locators of the results
    in [_blocklistedTests], and nothing else. *)
Definition locatorsConsistent (st : RunnerState) : Prop :=
  blockListedLocators st
  = list_to_set (map (fun r => locatorToString (tr_locator r)) (blocklistedTests st)).

Definition filterSpecs_keeps_consistent (s : Suite) : Prop :=
  forall parentSuites st,
    locatorsConsistent st -> locatorsConsistent (filterSpecs parentSuites s st).2.

Definition filterSpecs_keeps_included (s : Suite) : Prop :=
  forall parentSuites st,
    Forall (fun pt => disposition (testlocator st) pt.1 pt.2 = Include)
      (allTests parentSuites s) ->
    (filterSpecs parentSuites s st).1 = s.

End FilterVocabulary.

(** ** The two commands and the entry point *)

(** A value of [argv] as [yargs-parser] yields it: absent, a string,
    a number (taken as an integer), a boolean, or an array of values
    when the option is given more than once. *)
#[warning="-register-all"]
Inductive JSValue :=
| JSUndefined
| JSString (s : string)
| JSNumber (n : Z)
| JSBoolean (b : bool)
| JSArray (vs : list JSValue).



(** The arguments that the commands read. *)
Record Argv := MkArgv {
  command : JSValue;
  pattern : list string;
  diff : option (list string);
  locatorFile : option string
}.

Section Commands.
Context {core : Core} {engine : Engine}.

(** The collaborators of [discoverTests], [executeTests] and the entry
    point: the environment of the process, the validations, the
    dependency analysis, the engine's loaders and the reporting
    transport. A [bool] tells whether a call returns ([true]) or
    throws; an [option] is [None] when the call throws, except for
    [makeApiRequestPost], which yields the stack of its error. *)
Class Host := {
  Impacted : Type;
  DependencyMap : Type;
  Parallelism : Type;
  (** [process.env]: the ids, the branch, the parsed parallelism and
      the two endpoints ([""] when unset) *)
  buildID : string;
  taskID : string;
  orgID : string;
  branch : string;
  parallelism : Parallelism;
  postTestListEndpoint : string;
  postTestResultsEndpoint : string;
  (** [Validations.validateDiscoveryEnv(argv)], [validateExecutionEnv] *)
  validateDiscoveryEnv : Argv -> bool;
  validateExecutionEnv : Argv -> bool;
  (** [Util.listDependencies(testFiles)] *)
  listDependencies : list string -> option DependencyMap;
  (** [mocha.loadFilesAsync()] and [mocha['loadFiles']()] on the added
      files, with the root suite they leave *)
  loadFilesAsync : list string -> option Suite;
  loadFilesSync : list string -> option Suite;
  (** [Util.handleDuplicateTests(tests)] on the test nodes *)
  handleDuplicateTestNodes : list Test -> list Test;
  (** [Util.findImpactedTests(testsDepsMap, tests, changedFilesSet)] *)
  findImpactedTests : DependencyMap -> list Test -> gset string -> Impacted;
  (** [Util.getLocatorsConfigFromFile] followed by [Util.createLocatorSet] *)
  readLocatorSets : string -> option (list LocatorSet)
}.

Context {host : Host}.

(** [DiscoveryResult(tests, testSuites, impactedTests, repoID,
    commitID, buildID, taskID, orgID, branch, diff, parallelism)] *)
Record DiscoveryResult := MkDiscoveryResult {
  dr_tests : list Test;
  dr_testSuites : list TestSuite;
  dr_impactedTests : Impacted;
  dr_repoID : string;
  dr_commitID : string;
  dr_buildID : string;
  dr_taskID : string;
  dr_orgID : string;
  dr_branch : string;
  dr_diff : bool;
  dr_parallelism : Parallelism
}.

(** What is handed to [Util.makeApiRequestPost]. *)
Inductive Payload :=
| TestList (result : DiscoveryResult)
| TestResults (results : ExecutionResults).

(** The rest of the collaborators, which work on a discovery result. *)
Class Transport := {
  (** [Util.fillTotalTests(result)] *)
  fillTotalTests : DiscoveryResult -> DiscoveryResult;
  (** [Util.makeApiRequestPost(endpoint, payload)]: [None] when the
      request succeeds, the stack of the error otherwise *)
  makeApiRequestPost : string -> Payload -> option string
}.

Context {transport : Transport}.

(** The requests made, in order, with their endpoint. *)
Definition Posts := list (string * Payload).

(** Lines 74-78: load asynchronously, and synchronously if that fails. *)
Definition loadTree (testFiles : list string) : option Suite :=
  match loadFilesAsync testFiles with
  | Some root => Some root
  | None => loadFilesSync testFiles
  end.

(** Lines 88-95 of [discoverTests]. *)
Definition postTestList (result : DiscoveryResult) : Posts * (DiscoveryResult + Thrown) :=
  if bool_decide (postTestListEndpoint = "") then ([], inl result)
  else
    match makeApiRequestPost postTestListEndpoint (TestList result) with
    | None => ([(postTestListEndpoint, TestList result)], inl result)
    | Some stack =>
        ([(postTestListEndpoint, TestList result)], inr (RunnerException stack))
    end.

(** [discoverTests(argv)], lines 51-98. *)
Definition discoverTests (argv : Argv) : Posts * (DiscoveryResult + Thrown) :=
  if negb createMochaInstance then ([], inr MochaInstanceError)
  else if negb (validateDiscoveryEnv argv) then ([], inr ValidationError)
  else
    let testFiles := resolveGlob (pattern argv) in
    let changedFilesSet : gset string := list_to_set (default [] (diff argv)) in
    match listDependencies testFiles with
    | None => ([], inr DependencyError)
    | Some testsDepsMap =>
        match loadTree testFiles with
        | None => ([], inr LoadError)
        | Some root =>
            match discover root with
            | (_, Throw) => ([], inr TypeError)
            | (walked, Ok) =>
                let tests := handleDuplicateTestNodes (testsOf (emitted walked)) in
                let testSuites := testSuitesOf (emitted walked) in
                let impactedTests := findImpactedTests testsDepsMap tests changedFilesSet in
                postTestList
                  (fillTotalTests
                     (MkDiscoveryResult tests testSuites impactedTests repoID commitID
                        buildID taskID orgID branch (bool_decide (is_Some (diff argv)))
                        parallelism))
            end
        end
    end.

(** Lines 161-163: the locator sets, when [argv.locatorFile] is truthy. *)
Definition locatorSetsOf (argv : Argv) : option (list LocatorSet) + Thrown :=
  match locatorFile argv with
  | None => inl None
  | Some file =>
      if bool_decide (file = "") then inl None
      else
        match readLocatorSets file with
        | Some sets => inl (Some sets)
        | None => inr LocatorFileError
        end
  end.

(** [executeTests(argv)], lines 142-180, with its validation and its
    request: the requests made, how the call ends and the process
    afterwards. *)
Definition executeTestsCommand (argv : Argv) (p : Process)
    : Posts * (ExecutionResults + Thrown) * Process :=
  if negb (validateExecutionEnv argv) then ([], inr ValidationError, p)
  else
    match locatorSetsOf argv with
    | inr e => ([], inr e, p)
    | inl locatorSet =>
        match executeTests (pattern argv) locatorSet p with
        | (inr e, p') => ([], inr e, p')
        | (inl executionResults, p') =>
            if bool_decide (postTestResultsEndpoint = "") then ([], inl executionResults, p')
            else
              match
                makeApiRequestPost postTestResultsEndpoint (TestResults executionResults)
              with
              | None =>
                  ([(postTestResultsEndpoint, TestResults executionResults)],
                   inl executionResults, p')
              | Some stack =>
                  ([(postTestResultsEndpoint, TestResults executionResults)],
                   inr (PostError stack), p')
              end
        end
    end.




End Commands.

(** ** The options of the engine *)

(** [String.prototype.split] with a separator of one character. *)
Fixpoint splitOn (sep : ascii) (s : string) : list string :=
  match s with
  | EmptyString => [""]
  | String c rest =>
      if bool_decide (c = sep) then "" :: splitOn sep rest
      else
        match splitOn sep rest with
        | seg :: segs => String c seg :: segs
        | [] => [String c ""]
        end
  end.

(** A string with every occurrence of a character replaced. *)
Fixpoint replaceChar (old new : ascii) (s : string) : string :=
  match s with
  | EmptyString => ""
  | String c rest =>
      String (if bool_decide (c = old) then new else c) (replaceChar old new rest)
  end.

(** The collaborators of [getFilteredConfigs]: the loader of Mocha 6
    and later ([None] when requiring or calling it throws), the
    assignment [opts.parallel = ...], the file system and
    [yargs-parser] on a string. *)
Class MochaConfig := {
  MochaOptions : Type;
  loadOptions : list string -> option MochaOptions;
  withParallel : bool -> MochaOptions -> MochaOptions;
  existsSync : string -> bool;
  readFileSync : string -> string;
  parseOptions : string -> MochaOptions;
  noOptions : MochaOptions
}.

Section Options.
Context {config : MochaConfig}.

(** [getFilteredConfigs(argv)], lines 310-333, on [argv.config]: the
    options, and whether the warning of the legacy branch was written. *)
Definition getFilteredConfigs (argvConfig : option string) : MochaOptions * bool :=
  let args :=
    match argvConfig with
    | Some file => ["--config"; file]
    | None => []
    end in
  match loadOptions args with
  | Some opts => (withParallel false opts, false)
  | None =>
      let optsFilePath := default "./test/mocha.opts" argvConfig in
      if existsSync optsFilePath then
        let rawOpts := join " " (splitOn "010" (readFileSync optsFilePath)) in
        (parseOptions rawOpts, true)
      else (noOptions, true)
  end.

End Options.

(** ** Further trees and collaborators for the examples *)
Module Fixture.

(** A suite "S" of [a.js] that holds a suite "x" and a test "x". *)
Definition twinSuite : Suite := MkSuite "x" (Some "a.js") (Some []) (Some []).

Definition outerSuite : Suite :=
  MkSuite "S" (Some "a.js") (Some [MkTest "x" (Some "a.js")]) (Some [twinSuite]).

Definition twinTree : Suite := MkSuite "" None (Some []) (Some [outerSuite]).


(** Three child suites, of which the second has no [suites] array. *)
Definition soundSuite : Suite :=
  MkSuite "A" (Some "a.js") (Some [MkTest "works" (Some "a.js")]) (Some []).

Definition unsoundSuite : Suite := MkSuite "B" (Some "a.js") (Some []) None.

Definition lastSuite : Suite := MkSuite "C" (Some "a.js") (Some []) (Some []).

(** An engine whose world is the number of runs made so far: it loads
    the same tree whatever the files, reports every test left in the
    tree as passed and no suite; [disposes] tells whether the instance
    has a [dispose] method, which Mocha lacks before version 7.2. *)
Definition countingEngine (core : Core) (tree : Suite) (disposes : bool)
    : @Engine core := {|
  World := nat;
  createMochaInstance := true;
  resolveGlob patterns := patterns;
  getFilesFromTestLocators _ := [];
  loadFiles _ _ := Some tree;
  runSuite w pruned :=
    (map (fun pt => transformMochaTestAsTestResult pt.1 pt.2 Passed) (allTests [] pruned),
     [], S w);
  dispose _ := disposes;
  handleDuplicateTests results := results;
  filterTestResultsByTestLocator results selection _ :=
    filter (fun r => locatorToString (tr_locator r) ∈ selection) results
|}.

Definition modernEngine : @Engine Sample.nothingBlocked :=
  countingEngine Sample.nothingBlocked Sample.tree true.

Definition agedEngine : @Engine Sample.nothingBlocked :=
  countingEngine Sample.nothingBlocked Sample.tree false.

(** A legacy installation: the loader of Mocha 6 is missing, and the
    options file holds two lines. *)
Definition legacyConfig : MochaConfig := {|
  MochaOptions := list string;
  loadOptions _ := None;
  withParallel _ opts := opts;
  existsSync file := bool_decide (file = "./test/mocha.opts");
  readFileSync _ := "--timeout 5000" +:+ nl +:+ "--recursive";
  parseOptions raw := [raw];
  noOptions := []
|}.

End Fixture.

(** ** Further vocabulary: counting strings *)

(** The bits of a character and of a string, and a string of [k]
    characters for every [k]. *)
Definition asciiBits (c : ascii) : list bool :=
  let 'Ascii b0 b1 b2 b3 b4 b5 b6 b7 := c in [b0; b1; b2; b3; b4; b5; b6; b7].

Fixpoint bits (s : string) : list bool :=
  match s with
  | EmptyString => []
  | String c rest => asciiBits c ++ bits rest
  end.

Fixpoint ones (k : nat) : string :=
  match k with
  | O => ""
  | S k' => String "1" (ones k')
  end.

(** * Properties *)

(** ** The digest *)

(** RFC 1321 test suite (appendix A.5). *)
Example md5_empty : MD5.md5hex "" = "d41d8cd98f00b204e9800998ecf8427e"%string.
Proof. vm_compute. reflexivity. Qed.

Example md5_abc : MD5.md5hex "abc" = "900150983cd24fb0d6963f7d28e17f72"%string.
Proof. vm_compute. reflexivity. Qed.

Example md5_alphabet :
  MD5.md5hex "abcdefghijklmnopqrstuvwxyz" = "c3fcd3d76192e4007dfb496cca67e13b"%string.
Proof. vm_compute. reflexivity. Qed.

Example md5_two_blocks :
  MD5.md5hex "12345678901234567890123456789012345678901234567890123456789012345678901234567890"
  = "57edf4a22be3c955ac49da2e2107b67a"%string.
Proof. vm_compute. reflexivity. Qed.

(** ** Strings *)
Section Strings.

Lemma append_cons (x : ascii) (a b : string) : String x a +:+ b = String x (a +:+ b).
Proof. reflexivity. Qed.

Lemma append_empty_l (a : string) : "" +:+ a = a.
Proof. reflexivity. Qed.

Lemma append_assoc (a b c : string) : (a +:+ b) +:+ c = a +:+ b +:+ c.
Proof.
  induction a as [|x a IH]; [reflexivity|].
  rewrite !append_cons. f_equal. exact IH.
Qed.

Lemma append_empty_r (a : string) : a +:+ "" = a.
Proof.
  induction a as [|x a IH]; [reflexivity|].
  rewrite append_cons. f_equal. exact IH.
Qed.

Lemma append_length (a b : string) :
  String.length (a +:+ b) = String.length a + String.length b.
Proof.
  induction a as [|x a IH]; [reflexivity|].
  rewrite append_cons. cbn. f_equal. exact IH.
Qed.

Lemma append_cancel_l (a b c : string) : a +:+ b = a +:+ c -> b = c.
Proof.
  induction a as [|x a IH]; intros H; [exact H|].
  rewrite !append_cons in H. injection H. exact IH.
Qed.

(** Two strings of the same length that agree after appending agree. *)
Lemma append_inv_length (a b c d : string) :
  String.length a = String.length b -> a +:+ c = b +:+ d -> a = b /\ c = d.
Proof.
  revert b. induction a as [|x a IH]; intros [|y b]; cbn; intros Hl H;
    try discriminate; [auto|].
  injection Hl as Hl. rewrite !append_cons in H. injection H as -> H.
  destruct (IH b Hl H) as [-> ->]. auto.
Qed.

Lemma append_cancel_r (a b c : string) : a +:+ c = b +:+ c -> a = b.
Proof.
  intros H. apply (append_inv_length a b c c); [|assumption].
  apply (f_equal String.length) in H. rewrite !append_length in H. lia.
Qed.

Lemma join_cons sep x y rest :
  join sep (x :: y :: rest) = x +:+ sep +:+ join sep (y :: rest).
Proof. reflexivity. Qed.

Lemma join_snoc sep xs t :
  xs <> [] -> join sep (xs ++ [t]) = join sep xs +:+ sep +:+ t.
Proof.
  induction xs as [|x [|y xs] IH]; intros Hne; [contradiction|reflexivity|].
  change ((x :: y :: xs) ++ [t]) with (x :: y :: (xs ++ [t])).
  rewrite !join_cons. change (y :: xs ++ [t]) with ((y :: xs) ++ [t]).
  rewrite IH by discriminate. now rewrite !append_assoc.
Qed.

Lemma join_split sep l1 a l2 :
  join sep (l1 ++ a :: l2) = lead sep l1 +:+ a +:+ trail sep l2.
Proof.
  induction l1 as [|x l1 IH]; cbn [app lead].
  - destruct l2; cbn [trail]; [now rewrite append_empty_r | reflexivity].
  - destruct (l1 ++ a :: l2) eqn:E; [now destruct l1|].
    rewrite join_cons, IH, !append_assoc. reflexivity.
Qed.

(** The first line feed of a string splits it in one way only. *)
Lemma first_newline x y r r' :
  newlineFree x -> newlineFree y ->
  x +:+ nl +:+ r = y +:+ nl +:+ r' -> x = y /\ r = r'.
Proof.
  revert y. induction x as [|c x IH]; intros [|d y] Hx Hy H.
  - split; [reflexivity|]. now injection H.
  - exfalso. injection H as H _. destruct Hy as [Hd _]. congruence.
  - exfalso. injection H as H _. destruct Hx as [Hc _]. congruence.
  - rewrite !append_cons in H. injection H as -> H.
    destruct Hx as [_ Hx], Hy as [_ Hy].
    destruct (IH y Hx Hy H) as [-> ->]. auto.
Qed.

Lemma join_newline_inj xs : forall ys,
  length xs = length ys ->
  Forall newlineFree xs -> Forall newlineFree ys ->
  join nl xs = join nl ys -> xs = ys.
Proof.
  induction xs as [|x [|x2 xs] IH]; intros [|y [|y2 ys]] Hlen Hx Hy H;
    try discriminate; try reflexivity.
  - cbn in H. now subst.
  - rewrite !join_cons in H.
    apply Forall_cons_iff in Hx as [Hx Hxs]. apply Forall_cons_iff in Hy as [Hy Hys].
    apply first_newline in H as [-> H]; [|assumption..].
    f_equal. apply IH; [cbn in Hlen |- *; lia | assumption..].
Qed.

End Strings.

(** ** Lists *)
Section Lists.
Context {A B : Type}.

Lemma filter_flat_map (P : B -> Prop) `{!forall x, Decision (P x)}
    (f : A -> list B) (l : list A) :
  filter P (flat_map f l) = flat_map (fun x => filter P (f x)) l.
Proof.
  induction l as [|x l IH]; [reflexivity|].
  cbn [flat_map]. now rewrite filter_app, IH.
Qed.

Lemma filter_map_pair (a : A) (P : A * B -> Prop) `{!forall x, Decision (P x)}
    (l : list B) :
  map (pair a) (filter (fun b => P (a, b)) l) = filter P (map (pair a) l).
Proof.
  induction l as [|x l IH]; [reflexivity|].
  cbn [map]. rewrite !filter_cons.
  destruct (decide (P (a, x))); cbn [map]; now rewrite IH.
Qed.

End Lists.

(** ** The digest as a function: its width and its collisions *)
Section Digests.

Lemma hexdigit_hex n : isHexDigit (MD5.hexdigit n) = true.
Proof.
  unfold MD5.hexdigit. generalize (Z.to_nat n). intros k.
  do 16 (destruct k as [|k]; [reflexivity|]). destruct k; reflexivity.
Qed.

Lemma allHex_append a b : allHex (a +:+ b) = allHex a && allHex b.
Proof.
  induction a as [|c a IH]; [reflexivity|].
  rewrite append_cons. cbn [allHex]. now rewrite IH, andb_assoc.
Qed.

Lemma hexword_hex x : String.length (MD5.hexword x) = 8 /\ allHex (MD5.hexword x) = true.
Proof.
  split; [reflexivity|].
  unfold MD5.hexword. cbn [MD5.le_bytes fold_right].
  rewrite !allHex_append. unfold MD5.hexbyte. cbn [allHex].
  now rewrite !hexdigit_hex.
Qed.

Lemma md5hex_hex32 s : String.length (MD5.md5hex s) = 32 /\ allHex (MD5.md5hex s) = true.
Proof.
  unfold MD5.md5hex. destruct (MD5.digest _) as [a b c d].
  rewrite !append_length, !allHex_append.
  destruct (hexword_hex a) as [-> ->], (hexword_hex b) as [-> ->],
    (hexword_hex c) as [-> ->], (hexword_hex d) as [-> ->].
  split; reflexivity.
Qed.

Lemma bits_length s : length (bits s) = 8 * String.length s.
Proof.
  induction s as [|c s IH]; [reflexivity|].
  cbn [bits String.length]. rewrite length_app, IH. destruct c. cbn. lia.
Qed.

Lemma bits_inj s : forall t, bits s = bits t -> s = t.
Proof.
  induction s as [|c s IH]; intros [|d t] H.
  - reflexivity.
  - destruct d. discriminate.
  - destruct c. discriminate.
  - destruct c, d. cbn in H. injection H as -> -> -> -> -> -> -> -> H.
    f_equal. now apply IH.
Qed.

Lemma ones_inj j : forall k, ones j = ones k -> j = k.
Proof.
  induction j as [|j IH]; intros [|k] H; try discriminate; [reflexivity|].
  injection H as H. f_equal. now apply IH.
Qed.

(** There are at most [2 ^ m] lists of [m] bits. *)
Lemma bit_lists_bounded m : forall L : list (list bool),
  NoDup L -> Forall (fun l => length l = m) L -> length L <= 2 ^ m.
Proof.
  induction m as [|m IH]; intros L Hnodup Hlen.
  - destruct L as [|x [|y L]]; cbn; [lia | lia |].
    apply Forall_cons in Hlen as [Hx Hlen]. apply Forall_cons in Hlen as [Hy _].
    destruct x, y; try discriminate.
    apply NoDup_cons in Hnodup as [Hin _]. exfalso. apply Hin. left.
  - assert (Hhalf : forall (P : list bool -> Prop) (HP : forall x, Decision (P x)) b,
      (forall x, x ∈ L -> P x -> head x = Some b) ->
      length (filter P L) <= 2 ^ m).
    { intros P HP b Hhead.
      replace (length (filter P L)) with (length (tail <$> filter P L))
        by apply length_fmap.
      apply IH.
      - apply NoDup_fmap_2_strong; [|now apply NoDup_filter].
        intros x y [Hx Hxin]%list_elem_of_filter [Hy Hyin]%list_elem_of_filter Ht.
        apply Hhead in Hx, Hy; [|assumption..].
        destruct x as [|bx x], y as [|by' y]; try discriminate.
        cbn in *. congruence.
      - apply Forall_fmap, Forall_forall. intros x [Hx Hin]%list_elem_of_filter.
        rewrite Forall_forall in Hlen. specialize (Hlen x Hin).
        destruct x; [discriminate|]. cbn in *. lia. }
    pose proof (filter_app_complement (fun l => head l = Some true) L) as Hperm.
    apply Permutation_length in Hperm. rewrite length_app in Hperm.
    pose proof (Hhalf (fun l => head l = Some true) _ true) as H1.
    pose proof (Hhalf (fun l => ~ head l = Some true) _ false) as H0.
    rewrite Nat.pow_succ_r'.
    assert (length (filter (fun l => head l = Some true) L) <= 2 ^ m) by (apply H1; auto).
    assert (length (filter (fun l => ~ head l = Some true) L) <= 2 ^ m).
    { apply H0. intros x Hin Hx. rewrite Forall_forall in Hlen. specialize (Hlen x Hin).
      destruct x as [|[|] x]; [discriminate | contradiction | reflexivity]. }
    lia.
Qed.

(** There are at most [2 ^ (8 * n)] strings of [n] characters. *)
Lemma strings_bounded n (L : list string) :
  NoDup L -> Forall (fun s => String.length s = n) L -> length L <= 2 ^ (8 * n).
Proof.
  intros Hnodup Hlen.
  replace (length L) with (length (bits <$> L)) by apply length_fmap.
  apply bit_lists_bounded.
  - apply NoDup_fmap_2_strong; [|exact Hnodup]. intros x y _ _. apply bits_inj.
  - apply Forall_fmap. eapply Forall_impl; [exact Hlen|].
    intros s Hs. cbn. now rewrite bits_length, Hs.
Qed.

(** Either two elements of the list have the same image, or all the
    images are different. *)
Lemma shared_image_or_NoDup (h : string -> string) (L : list string) :
  NoDup L ->
  (exists a b, a <> b /\ h a = h b) \/ NoDup (h <$> L).
Proof.
  induction 1 as [|x L Hx _ IH]; [right; constructor|].
  destruct IH as [IH|IH]; [now left|].
  destruct (decide (h x ∈ h <$> L)) as [Hin|Hin].
  - left. apply list_elem_of_fmap in Hin as (y & Hy & Hin).
    exists x, y. split; [|exact Hy]. intros ->. contradiction.
  - right. rewrite fmap_cons. now constructor.
Qed.

(** A function that maps every string to a string of a fixed length
    takes the same value on two different strings. *)
Lemma fixed_width_not_injective n (h : string -> string) :
  (forall s, String.length (h s) = n) ->
  exists a b, a <> b /\ h a = h b.
Proof.
  intros Hwidth. remember (2 ^ (8 * n)) as N eqn:HN.
  assert (Hnodup : NoDup (ones <$> seq 0 (S N))).
  { apply NoDup_fmap_2_strong; [|apply NoDup_seq]. intros j k _ _. apply ones_inj. }
  destruct (shared_image_or_NoDup h _ Hnodup) as [H|H]; [exact H|].
  exfalso.
  assert (Hbound : length (h <$> (ones <$> seq 0 (S N))) <= N).
  { subst N. apply strings_bounded; [exact H|].
    apply Forall_fmap, Forall_forall. intros s _. apply Hwidth. }
  rewrite !length_fmap, length_seq in Hbound. lia.
Qed.

(** MD5 takes the same value on two different inputs of any given
    form: there are more strings than digests. *)
Lemma md5hex_not_injective (input : string -> string) :
  exists a b, a <> b /\ MD5.md5hex (input a) = MD5.md5hex (input b).
Proof.
  apply (fixed_width_not_injective 32 (fun s => MD5.md5hex (input s))).
  intros s. apply md5hex_hex32.
Qed.

(** Two different texts of 72 letters and digits with the same digest. *)
Example md5_collision :
  md5Collision
    "TEXTCOLLBYfGiJUETHQ4hAcKSMd5zYpgqf1YRDhkmxHkhPWptrkoyz28wnI9V0aHeAuaKnak"
    "TEXTCOLLBYfGiJUETHQ4hEcKSMd5zYpgqf1YRDhkmxHkhPWptrkoyz28wnI9V0aHeAuaKnak".
Proof. split; [discriminate | vm_compute; reflexivity]. Qed.

End Digests.


(** ** The locator filter *)
Section FilterFacts.
Context {core : Core}.

Lemma extends_refl st : extends st [] [] st.
Proof. unfold extends. now rewrite !app_nil_r. Qed.

Lemma extends_trans st1 st2 st3 ts ss ts' ss' :
  extends st1 ts ss st2 -> extends st2 ts' ss' st3 ->
  extends st1 (ts ++ ts') (ss ++ ss') st3.
Proof.
  intros (Ht & Hs & Hl) (Ht' & Hs' & Hl'). unfold extends.
  rewrite Ht', Hs', Hl', Ht, Hs, Hl, !app_assoc. auto.
Qed.

Lemma filterTest_disposition parentSuites filteredTests st test :
  filterTest parentSuites (filteredTests, st) test =
  match disposition (testlocator st) parentSuites test with
  | Include => (filteredTests ++ [test], st)
  | Blocked =>
      (filteredTests,
       recordBlocklistedTest (blocklistedResult (parentSuites, test)) st)
  | Excluded => (filteredTests, st)
  end.
Proof.
  unfold filterTest, disposition.
  repeat case_bool_decide;
    try destruct (isBlocklistedLocator (getLocator _ _ _)); reflexivity.
Qed.

Lemma filterTest_loop parentSuites tests : forall filteredTests st,
  let r := fold_left (filterTest parentSuites) tests (filteredTests, st) in
  r.1 = filteredTests ++
        filter (fun t => disposition (testlocator st) parentSuites t = Include) tests /\
  extends st
    (map (fun t => blocklistedResult (parentSuites, t))
       (filter (fun t => disposition (testlocator st) parentSuites t = Blocked) tests))
    [] r.2.
Proof.
  induction tests as [|t tests IH]; intros filteredTests st; cbn [fold_left].
  - cbn. rewrite app_nil_r. split; [reflexivity | apply extends_refl].
  - rewrite filterTest_disposition, !filter_cons.
    destruct (disposition (testlocator st) parentSuites t) eqn:Hd; cbn zeta.
    + destruct (IH (filteredTests ++ [t]) st) as [H1 H2].
      rewrite decide_True by reflexivity. rewrite decide_False by discriminate.
      split; [now rewrite H1, <- app_assoc | exact H2].
    + destruct (IH filteredTests
                  (recordBlocklistedTest (blocklistedResult (parentSuites, t)) st))
        as [H1 H2].
      rewrite decide_False by discriminate. rewrite decide_True by reflexivity.
      split; [exact H1|].
      cbn [map]. change (?x :: ?l) with ([x] ++ l).
      change (@nil TestSuiteResult) with (@nil TestSuiteResult ++ []).
      eapply extends_trans; [|exact H2].
      unfold extends, recordBlocklistedTest; cbn. rewrite app_nil_r. auto.
    + destruct (IH filteredTests st) as [H1 H2].
      rewrite !decide_False by discriminate. auto.
Qed.

Lemma checkSuite_extends parentSuites childSuite st :
  extends st []
    (map blocklistedSuiteResult
       (filter (fun ps => isBlocklistedLocator (locatorOfSuite ps) = true)
          [(parentSuites, childSuite)]))
    (checkSuite parentSuites childSuite st).
Proof.
  unfold checkSuite. rewrite filter_cons, filter_nil.
  unfold locatorOfSuite at 1. cbn [fst snd].
  destruct (isBlocklistedLocator _) eqn:Hb.
  - rewrite decide_True by reflexivity.
    unfold extends, recordBlocklistedSuite; cbn. now rewrite app_nil_r.
  - rewrite decide_False by discriminate. apply extends_refl.
Qed.

Lemma forEachChild_effect parentSuites cs :
  Forall filterSpecs_effect cs ->
  forall st,
    let r :=
      forEachChild
        (fun childSuite st0 =>
           filterSpecs (parentSuites ++ [suite_title childSuite]) childSuite
             (checkSuite parentSuites childSuite st0)) cs st in
    flat_map (fun c => allTests (parentSuites ++ [suite_title c]) c) r.1 =
      filter (fun pt => disposition (testlocator st) pt.1 pt.2 = Include)
        (flat_map (fun c => allTests (parentSuites ++ [suite_title c]) c) cs) /\
    extends st
      (map blocklistedResult
         (filter (fun pt => disposition (testlocator st) pt.1 pt.2 = Blocked)
            (flat_map (fun c => allTests (parentSuites ++ [suite_title c]) c) cs)))
      (map blocklistedSuiteResult
         (filter (fun ps => isBlocklistedLocator (locatorOfSuite ps) = true)
            (flat_map
               (fun c => (parentSuites, c) :: allSuites (parentSuites ++ [suite_title c]) c)
               cs)))
      r.2 /\
    map suiteKey
      (flat_map
         (fun c => (parentSuites, c) :: allSuites (parentSuites ++ [suite_title c]) c)
         r.1)
    = map suiteKey
        (flat_map
           (fun c => (parentSuites, c) :: allSuites (parentSuites ++ [suite_title c]) c)
           cs).
Proof.
  induction 1 as [|c cs Hc _ IH]; intros st.
  - cbn. split; [reflexivity|]. split; [apply extends_refl | reflexivity].
  - cbn [forEachChild flat_map].
    pose proof (checkSuite_extends parentSuites c st) as Hchk.
    specialize (Hc (parentSuites ++ [suite_title c]) (checkSuite parentSuites c st)).
    destruct (filterSpecs _ c _) as [c' st1]. cbn [fst snd] in Hc.
    destruct Hc as ([Htitle Hfile] & Htests & Hext & Hkeys).
    specialize (IH st1). destruct (forEachChild _ cs st1) as [rest' st2].
    cbn [fst snd] in IH |- *. destruct IH as (IHtests & IHext & IHkeys).
    assert (Hsel : testlocator (checkSuite parentSuites c st) = testlocator st)
      by apply Hchk.
    assert (Hsel1 : testlocator st1 = testlocator st)
      by (destruct Hext as (_ & _ & ->); exact Hsel).
    rewrite Hsel in Htests, Hext. rewrite Hsel1 in IHtests, IHext.
    split; [|split].
    + cbn [flat_map]. rewrite Htitle, Htests, IHtests, filter_app. reflexivity.
    + rewrite !filter_app, !map_app.
      change ((parentSuites, c) :: ?l) with ([(parentSuites, c)] ++ l).
      rewrite filter_app, map_app.
      eapply extends_trans; [|exact IHext].
      change (map blocklistedResult (filter _ (allTests _ c)))
        with ([] ++ map blocklistedResult
                      (testsWith Blocked (testlocator st)
                         (parentSuites ++ [suite_title c]) c)).
      eapply extends_trans; [exact Hchk | exact Hext].
    + cbn [flat_map app map]. rewrite !map_app, IHkeys, Htitle, Hkeys.
      unfold suiteKey at 1 3. cbn [fst snd]. now rewrite Htitle, Hfile.
Qed.

Lemma filterSpecs_spec s : filterSpecs_effect s.
Proof.
  induction s as [title file tests|title file tests cs IH] using Suite_tree_ind;
    intros parentSuites st; cbn [filterSpecs].
  - unfold filterTests. destruct tests as [ts|].
    + pose proof (filterTest_loop parentSuites ts [] st) as [H1 H2].
      destruct (fold_left _ ts _) as [filteredTests st']. cbn [fst snd] in *.
      unfold testsWith, blockedSuites. cbn [allTests allSuites default].
      rewrite !app_nil_r, <- !filter_map_pair, H1.
      split; [split; reflexivity|]. split; [reflexivity|]. split; [|reflexivity].
      cbn [filter map]. rewrite map_map. exact H2.
    + cbn. split; [split; reflexivity|]. split; [reflexivity|].
      split; [apply extends_refl | reflexivity].
  - pose proof (forEachChild_effect parentSuites cs IH) as Hcs.
    unfold filterTests. destruct tests as [ts|].
    + pose proof (filterTest_loop parentSuites ts [] st) as [H1 H2].
      destruct (fold_left _ ts _) as [filteredTests st1]. cbn [fst snd] in *.
      specialize (Hcs st1). destruct (forEachChild _ cs st1) as [cs' st2].
      cbn [fst snd] in *. destruct Hcs as (Hc1 & Hc2 & Hc3).
      assert (Hsel : testlocator st1 = testlocator st) by apply H2.
      rewrite Hsel in Hc1, Hc2.
      unfold testsWith, blockedSuites. cbn [allTests allSuites default].
      rewrite !filter_app, !map_app, <- !filter_map_pair, H1, Hc1.
      split; [split; reflexivity|]. split; [reflexivity|]. split; [|exact Hc3].
      change (map blocklistedSuiteResult (filter _ (flat_map _ cs)))
        with ([] ++ map blocklistedSuiteResult
                      (filter (fun ps => isBlocklistedLocator (locatorOfSuite ps) = true)
                         (flat_map
                            (fun c => (parentSuites, c)
                                        :: allSuites (parentSuites ++ [suite_title c]) c)
                            cs))).
      eapply extends_trans; [|exact Hc2].
      rewrite map_map. exact H2.
    + specialize (Hcs st). destruct (forEachChild _ cs st) as [cs' st2].
      cbn [fst snd] in *. destruct Hcs as (Hc1 & Hc2 & Hc3).
      unfold testsWith, blockedSuites. cbn [allTests allSuites default map].
      rewrite !app_nil_l, Hc1.
      split; [split; reflexivity|]. split; [reflexivity|]. split; [exact Hc2 | exact Hc3].
Qed.

(** The blocklisted suite results of two lists of suites with the same
    keys are the same. *)
Lemma blockedSuites_keys (l : list (list string * Suite)) : forall l',
  map suiteKey l = map suiteKey l' ->
  map blocklistedSuiteResult
    (filter (fun ps => isBlocklistedLocator (locatorOfSuite ps) = true) l)
  = map blocklistedSuiteResult
      (filter (fun ps => isBlocklistedLocator (locatorOfSuite ps) = true) l').
Proof.
  induction l as [|[p c] l IH]; intros [|[p' c'] l'] H; try discriminate; [reflexivity|].
  injection H as -> Htitle Hfile H.
  assert (Hloc : locatorOfSuite (p', c) = locatorOfSuite (p', c'))
    by (unfold locatorOfSuite; cbn [fst snd]; now rewrite Htitle, Hfile).
  assert (Hres : blocklistedSuiteResult (p', c) = blocklistedSuiteResult (p', c')).
  { unfold blocklistedSuiteResult, transformMochaSuiteAsSuiteResult. cbn [fst snd].
    now rewrite Htitle, Hfile. }
  rewrite !filter_cons, Hloc.
  destruct (decide _); cbn [map]; rewrite (IH l' H); [|reflexivity].
  now rewrite Hres.
Qed.

Lemma filter_filter_same {A} (P : A -> Prop) `{!forall x, Decision (P x)} (l : list A) :
  filter P (filter P l) = filter P l.
Proof.
  induction l as [|x l IH]; [reflexivity|].
  rewrite filter_cons. destruct (decide (P x)); [|exact IH].
  rewrite filter_cons, decide_True by assumption. now rewrite IH.
Qed.

Lemma filter_filter_other {A} (P Q : A -> Prop) `{!forall x, Decision (P x)}
    `{!forall x, Decision (Q x)} (l : list A) :
  (forall x, P x -> ~ Q x) -> filter Q (filter P l) = [].
Proof.
  intros HPQ. induction l as [|x l IH]; [reflexivity|].
  rewrite filter_cons. destruct (decide (P x)) as [HP|]; [|exact IH].
  rewrite filter_cons, decide_False by auto. exact IH.
Qed.

(** The wrappers of a pass, one after the other: the tests are settled
    by the first one; every one records the blocklisted suites again. *)
Lemma wrappedRun_effect n : forall suite st,
  let r := wrappedRun (S n) suite st in
  allTests [] r.1 = testsWith Include (testlocator st) [] suite /\
  extends st
    (map blocklistedResult (testsWith Blocked (testlocator st) [] suite))
    (concat (repeat (map blocklistedSuiteResult (blockedSuites [] suite)) (S n))) r.2 /\
  map suiteKey (allSuites [] r.1) = map suiteKey (allSuites [] suite).
Proof.
  induction n as [|n IH]; intros suite st; cbn [wrappedRun].
  - destruct (filterSpecs_spec suite [] st) as (_ & Hrun & Hext & Hkeys).
    destruct (filterSpecs [] suite st) as [suite1 st1]. cbn [fst snd repeat concat] in *.
    rewrite app_nil_r. auto.
  - destruct (filterSpecs_spec suite [] st) as (_ & Hrun & Hext & Hkeys).
    destruct (filterSpecs [] suite st) as [suite1 st1]. cbn [fst snd] in *.
    specialize (IH suite1 st1). cbn [wrappedRun] in IH.
    destruct IH as (Hrun' & Hext' & Hkeys').
    assert (Hsel : testlocator st1 = testlocator st) by apply Hext.
    rewrite Hsel in Hrun', Hext'. unfold testsWith in Hrun', Hext'.
    rewrite Hrun in Hrun', Hext'. unfold testsWith in Hrun', Hext'.
    rewrite filter_filter_same in Hrun'.
    rewrite filter_filter_other in Hext' by (intros x ->; discriminate).
    unfold blockedSuites in Hext' at 1.
    rewrite (blockedSuites_keys _ _ Hkeys) in Hext'. fold (blockedSuites [] suite) in Hext'.
    split; [exact Hrun'|]. split; [|now rewrite Hkeys'].
    pose proof (extends_trans _ _ _ _ _ _ _ Hext Hext') as H.
    cbn [map] in H. rewrite app_nil_r in H. exact H.
Qed.

End FilterFacts.

(** ** Claims on the locator filter *)
Section FilterClaims.
Context {core : Core}.

Lemma disposition_partition (selection : gset string) (l : list (list string * MochaTest)) :
  Permutation l
    (filter (fun pt => disposition selection pt.1 pt.2 = Include) l ++
     filter (fun pt => disposition selection pt.1 pt.2 = Blocked) l ++
     filter (fun pt => disposition selection pt.1 pt.2 = Excluded) l).
Proof.
  induction l as [|pt l IH]; [constructor|].
  rewrite !filter_cons.
  destruct (disposition selection pt.1 pt.2) eqn:Hd;
    repeat case_decide; try congruence.
  - cbn. now constructor.
  - exact (Permutation_cons_app _ _ _ IH).
  - rewrite app_assoc. apply Permutation_cons_app.
    rewrite <- app_assoc. exact IH.
Qed.

Lemma recordedTests_extends st ts ss st' :
  extends st ts ss st' -> recordedTests st st' = ts.
Proof. intros (H & _). unfold recordedTests. rewrite H. apply drop_app_length. Qed.

Lemma recordedSuites_extends st ts ss st' :
  extends st ts ss st' -> recordedSuites st st' = ss.
Proof. intros (_ & H & _). unfold recordedSuites. rewrite H. apply drop_app_length. Qed.

(** C4. Filter completeness: one evaluation of a test has exactly one
    of three effects - the test is pushed to the filtered list, or its
    result is recorded as blocklisted, or nothing happens - and over
    the filtering of a pass (one run of the filter per wrapper) the
    tests left in the tree, the tests recorded as blocklisted and the
    tests dropped are the tests of the three dispositions, which
    together are the tests of the tree, each once. *)
Theorem filter_completeness (n : nat) (suite : Suite) (st : RunnerState) :
  (forall parentSuites filteredTests test,
     let kept := filterTest parentSuites (filteredTests, st) test
                 = (filteredTests ++ [test], st) in
     let blocked := filterTest parentSuites (filteredTests, st) test
                    = (filteredTests,
                       recordBlocklistedTest (blocklistedResult (parentSuites, test)) st) in
     let dropped := filterTest parentSuites (filteredTests, st) test
                    = (filteredTests, st) in
     (kept /\ ~ blocked /\ ~ dropped) \/ (~ kept /\ blocked /\ ~ dropped)
     \/ (~ kept /\ ~ blocked /\ dropped)) /\
  let r := wrappedRun (S n) suite st in
  let selection := testlocator st in
  allTests [] r.1 = testsWith Include selection [] suite /\
  recordedTests st r.2 = map blocklistedResult (testsWith Blocked selection [] suite) /\
  Permutation (allTests [] suite)
    (allTests [] r.1 ++
     testsWith Blocked selection [] suite ++ testsWith Excluded selection [] suite).
Proof.
  split.
  - intros parentSuites filteredTests test kept blocked dropped.
    subst kept blocked dropped. rewrite filterTest_disposition.
    assert (Hne : forall l : list MochaTest, l ++ [test] <> l).
    { intros l H. apply (f_equal length) in H. rewrite length_app in H. cbn in H. lia. }
    assert (Hrec : forall r, recordBlocklistedTest r st <> st).
    { intros r H. apply (f_equal blocklistedTests) in H. cbn in H.
      apply (f_equal length) in H. rewrite length_app in H. cbn in H. lia. }
    destruct (disposition _ _ _); [left | right; left | right; right];
      repeat split; try reflexivity; intros H; injection H; intros;
      try (eapply Hne; eassumption); try (eapply Hrec; eassumption);
      try (eapply Hne; symmetry; eassumption);
      try (eapply Hrec; symmetry; eassumption).
  - intros r selection. subst r selection.
    destruct (wrappedRun_effect n suite st) as (Hrun & Hext & _).
    split; [exact Hrun|]. split; [exact (recordedTests_extends _ _ _ _ Hext)|].
    rewrite Hrun. apply disposition_partition.
Qed.

Lemma disposition_blocklisted selection pt :
  isBlocklistedLocator (locatorOfTest pt) = true ->
  0 < size selection ->
  disposition selection pt.1 pt.2 =
  if bool_decide (locatorToString (locatorOfTest pt) ∈ selection)
  then Blocked else Excluded.
Proof.
  unfold disposition, locatorOfTest. intros -> Hsize.
  rewrite bool_decide_eq_true_2 by exact Hsize. reflexivity.
Qed.

(** C1, as amended. In a pass with a non-empty explicit locator set, a
    test of the tree whose locator matches the blocklist predicate is
    never kept in the run set, and it is recorded, with status
    BlockListed, exactly when its locator is in the explicit selection;
    otherwise it is dropped without a record. *)
Theorem blocklisted_test_recorded_iff_selected (n : nat) (suite : Suite)
    (st : RunnerState) (pt : list string * MochaTest) :
  0 < size (testlocator st) ->
  In pt (allTests [] suite) ->
  isBlocklistedLocator (locatorOfTest pt) = true ->
  let r := wrappedRun (S n) suite st in
  ~ In pt (allTests [] r.1) /\
  tr_status (blocklistedResult pt) = BlockListed /\
  (In (blocklistedResult pt) (recordedTests st r.2)
   <-> locatorToString (locatorOfTest pt) ∈ testlocator st).
Proof.
  intros Hsize Hin Hblocked r. subst r.
  destruct (wrappedRun_effect n suite st) as (Hrun & Hext & _).
  rewrite Hrun, (recordedTests_extends _ _ _ _ Hext). unfold testsWith.
  pose proof (disposition_blocklisted _ pt Hblocked Hsize) as Hd.
  split; [|split; [reflexivity|split]].
  - rewrite <- list_elem_of_In, list_elem_of_filter. intros [Hi _].
    rewrite Hd in Hi. case_bool_decide; discriminate.
  - rewrite in_map_iff. intros (pt' & Heq & Hin').
    rewrite <- list_elem_of_In, list_elem_of_filter in Hin'. destruct Hin' as [Hd' _].
    assert (Hloc : locatorOfTest pt' = locatorOfTest pt)
      by exact (f_equal tr_locator Heq).
    assert (Hblocked' : isBlocklistedLocator (locatorOfTest pt') = true)
      by now rewrite Hloc.
    rewrite (disposition_blocklisted _ pt' Hblocked' Hsize), Hloc in Hd'.
    case_bool_decide; [assumption | discriminate].
  - intros Hsel. apply in_map. rewrite <- list_elem_of_In, list_elem_of_filter.
    split; [|now rewrite list_elem_of_In].
    rewrite Hd. now rewrite bool_decide_eq_true_2.
Qed.

(** C2, as amended. Each time the filter comes to a child suite whose
    own locator matches the blocklist predicate, it records one
    suite-level result with status BlockListed for the suite itself and
    then filters the suite like any other: every blocklisted suite
    below it gets its own record, and every test below it is kept,
    recorded as blocklisted or dropped by its own disposition. *)
Theorem blocklisted_suite_recorded_not_pruned (parentSuites : list string)
    (childSuite : Suite) (st : RunnerState) :
  isBlocklistedLocator (locatorOfSuite (parentSuites, childSuite)) = true ->
  let chain := parentSuites ++ [suite_title childSuite] in
  let r := filterSpecs chain childSuite (checkSuite parentSuites childSuite st) in
  recordedSuites st r.2
    = blocklistedSuiteResult (parentSuites, childSuite)
        :: map blocklistedSuiteResult (blockedSuites chain childSuite) /\
  sr_status (blocklistedSuiteResult (parentSuites, childSuite)) = BlockListed /\
  allTests chain r.1 = testsWith Include (testlocator st) chain childSuite /\
  recordedTests st r.2
    = map blocklistedResult (testsWith Blocked (testlocator st) chain childSuite).
Proof.
  intros Hblocked chain r. subst r.
  pose proof (checkSuite_extends parentSuites childSuite st) as Hchk.
  rewrite filter_cons, filter_nil, decide_True in Hchk by exact Hblocked.
  destruct (filterSpecs_spec childSuite chain (checkSuite parentSuites childSuite st))
    as (_ & Hrun & Hext & _).
  assert (Hsel : testlocator (checkSuite parentSuites childSuite st) = testlocator st)
    by apply Hchk.
  rewrite Hsel in Hrun, Hext.
  pose proof (extends_trans _ _ _ _ _ _ _ Hchk Hext) as Hall.
  split; [exact (recordedSuites_extends _ _ _ _ Hall)|].
  split; [reflexivity|]. split; [exact Hrun|].
  exact (recordedTests_extends _ _ _ _ Hall).
Qed.

End FilterClaims.

(** ** Claims on the execution passes *)
Section ExecutionClaims.
Context {core : Core} {engine : Engine}.

(** The three ways in which a pass ends: the engine instance cannot be
    created; the files do not load; or the tree is filtered and run,
    and the result is returned if the instance can be disposed of. *)
Lemma execute_cases testFilesGlob locs p :
  (createMochaInstance = false /\
   execute testFilesGlob locs p = (inr MochaInstanceError, p)) \/
  (createMochaInstance = true /\
   loadedTree testFilesGlob locs (world p) = None /\
   execute testFilesGlob locs p
   = (inr LoadError,
      MkProcess (world p) (setTestlocator locs (fields p)) (S (wrappers p)))) \/
  (createMochaInstance = true /\
   exists root,
     loadedTree testFilesGlob locs (world p) = Some root /\
     execute testFilesGlob locs p
     = (if dispose (world (afterPass locs p root))
        then inl (passResult locs p root) else inr DisposeError,
        afterPass locs p root)).
Proof.
  unfold execute, loadedTree.
  change (testlocator (setTestlocator locs (fields p)))
    with (list_to_set (C:=gset string) locs).
  destruct createMochaInstance; cbn [negb]; [right | now left].
  destruct (loadFiles _ _) as [root|]; [right | left; auto].
  split; [reflexivity|]. exists root. split; [reflexivity|].
  unfold passResult, afterPass.
  destruct (wrappedRun_effect (wrappers p) root (setTestlocator locs (fields p)))
    as (_ & (_ & _ & Hl) & _).
  destruct (wrappedRun (S (wrappers p)) root (setTestlocator locs (fields p)))
    as [pruned st1].
  cbn [fst snd] in *.
  destruct (runSuite (world p) pruned) as [[engineTests engineSuites] w'].
  cbn [fst snd world]. rewrite Hl. cbn [setTestlocator testlocator].
  destruct (dispose w'); reflexivity.
Qed.

(** A pass that returns has loaded its tree, and leaves the result and
    the process of [passResult] and [afterPass]. *)
Lemma execute_returns testFilesGlob locs p result p' :
  execute testFilesGlob locs p = (inl result, p') <->
  createMochaInstance = true /\
  exists root,
    loadedTree testFilesGlob locs (world p) = Some root /\
    dispose (world (afterPass locs p root)) = true /\
    result = passResult locs p root /\ p' = afterPass locs p root.
Proof.
  destruct (execute_cases testFilesGlob locs p)
    as [(Hc & ->) | [(Hc & Hload & ->) | (Hc & root & Hload & ->)]].
  - split; [discriminate | intros [? _]; congruence].
  - split; [discriminate | intros (_ & root & ? & _); congruence].
  - split.
    + destruct (dispose _) eqn:Hd; [|discriminate].
      intros [= <- <-]. split; [exact Hc|]. exists root. auto.
    + intros (_ & root' & Hload' & Hd & -> & ->).
      assert (root' = root) as -> by congruence. now rewrite Hd.
Qed.

(** The fields and the wrappers after a pass that has run its tree. *)
Lemma afterPass_fields locs p root :
  blocklistedTests (fields (afterPass locs p root))
    = blocklistedTests (fields p)
        ++ map blocklistedResult (testsWith Blocked (list_to_set locs) [] root) /\
  blocklistedSuites (fields (afterPass locs p root))
    = blocklistedSuites (fields p)
        ++ concat (repeat (map blocklistedSuiteResult (blockedSuites [] root))
                     (S (wrappers p))) /\
  testlocator (fields (afterPass locs p root)) = list_to_set locs /\
  wrappers (afterPass locs p root) = S (wrappers p).
Proof.
  unfold afterPass.
  destruct (wrappedRun_effect (wrappers p) root (setTestlocator locs (fields p)))
    as (_ & (Ht & Hs & Hl) & _).
  cbn [fields wrappers]. auto.
Qed.

(** The suite results of a pass that has run: what the engine
    reported, then everything the runner has accumulated so far, then
    the blocklisted suites of the tree of this pass, once per wrapper. *)
Lemma passResult_suiteResults locs p root :
  let f := wrappedRun (S (wrappers p)) root (setTestlocator locs (fields p)) in
  testSuiteResults (passResult locs p root)
    = (runSuite (world p) f.1).1.2 ++ blocklistedSuites (fields p)
        ++ concat (repeat (map blocklistedSuiteResult (blockedSuites [] root))
                     (S (wrappers p))).
Proof.
  intros f. destruct (afterPass_fields locs p root) as (_ & Hs & _).
  unfold passResult. cbn [testSuiteResults]. fold f.
  unfold afterPass in Hs. cbn [fields] in Hs. fold f in Hs. now rewrite Hs.
Qed.

(** C10. In a pass with a non-empty explicit locator set the test
    results go through the restriction to the selected locators, while
    the suite results are the engine's followed by the accumulated
    blocklisted suites, unfiltered; so every suite of the tree whose
    locator matches the blocklist predicate has its BlockListed result
    in the report of the pass, whatever the selection holds. *)
Theorem suite_results_not_filtered (testFilesGlob locs : list string)
    (p : Process) (root : Suite) (result : ExecutionResult)
    (ps : list string * Suite) :
  0 < size (list_to_set (C:=gset string) locs) ->
  loadedTree testFilesGlob locs (world p) = Some root ->
  (execute testFilesGlob locs p).1 = inl result ->
  In ps (allSuites [] root) ->
  isBlocklistedLocator (locatorOfSuite ps) = true ->
  let f := wrappedRun (S (wrappers p)) root (setTestlocator locs (fields p)) in
  let run := runSuite (world p) f.1 in
  testResults result
    = filterTestResultsByTestLocator
        (handleDuplicateTests (run.1.1 ++ blocklistedTests f.2))
        (list_to_set locs) (blockListedLocators f.2) /\
  testSuiteResults result = run.1.2 ++ blocklistedSuites f.2 /\
  In (blocklistedSuiteResult ps) (testSuiteResults result) /\
  sr_status (blocklistedSuiteResult ps) = BlockListed.
Proof.
  intros Hsize Hload Hret Hin Hblocked f run.
  assert (Hresult : result = passResult locs p root).
  { destruct (execute testFilesGlob locs p) as [r p'] eqn:He. cbn [fst] in Hret. subst r.
    apply execute_returns in He as (_ & root' & Hload' & _ & -> & _). congruence. }
  subst result.
  split; [|split; [reflexivity|split; [|reflexivity]]].
  - unfold passResult. cbn [testResults]. now rewrite bool_decide_eq_true_2 by exact Hsize.
  - rewrite passResult_suiteResults, !in_app_iff. right; right.
    cbn [repeat concat]. rewrite in_app_iff. left. apply in_map.
    unfold blockedSuites. rewrite <- list_elem_of_In, list_elem_of_filter.
    split; [exact Hblocked | now rewrite list_elem_of_In].
Qed.

(** What the runner holds when a pass begins is part of the suite
    results of that pass: the records of every earlier pass are
    reported again. *)
Lemma next_pass_reports_earlier_suites testFilesGlob locs1 locs2 p result2 :
  let p1 := (execute testFilesGlob locs1 p).2 in
  (execute testFilesGlob locs2 p1).1 = inl result2 ->
  forall x, In x (blocklistedSuites (fields p1)) -> In x (testSuiteResults result2).
Proof.
  intros p1 Hret x Hx.
  destruct (execute testFilesGlob locs2 p1) as [r p2] eqn:He. cbn [fst] in Hret. subst r.
  apply execute_returns in He as (_ & root & _ & _ & -> & _).
  rewrite passResult_suiteResults, !in_app_iff. right; left. exact Hx.
Qed.

Lemma runPasses_app testFilesGlob l1 l2 : forall executionResults p,
  runPasses testFilesGlob (l1 ++ l2) executionResults p
  = match runPasses testFilesGlob l1 executionResults p with
    | (inl executionResults', p') => runPasses testFilesGlob l2 executionResults' p'
    | (inr e, p') => (inr e, p')
    end.
Proof.
  induction l1 as [|locs l1 IH]; intros executionResults p; [reflexivity|].
  cbn [app runPasses]. destruct (execute testFilesGlob locs p) as [[result|e] p'];
    [apply IH | reflexivity].
Qed.

Lemma executeTimes_runPasses testFilesGlob locs n : forall executionResults p,
  executeTimes n testFilesGlob locs executionResults p
  = runPasses testFilesGlob (repeat locs n) executionResults p.
Proof.
  induction n as [|n IH]; intros executionResults p; [reflexivity|].
  cbn [executeTimes repeat runPasses].
  destruct (execute testFilesGlob locs p) as [[result|e] p']; [apply IH | reflexivity].
Qed.

Lemma executeSets_runPasses testFilesGlob sets : forall executionResults p,
  executeSets testFilesGlob sets executionResults p
  = runPasses testFilesGlob (schedule sets) executionResults p.
Proof.
  induction sets as [|set sets IH]; intros executionResults p; [reflexivity|].
  cbn [executeSets schedule flat_map]. fold (schedule sets).
  rewrite runPasses_app, executeTimes_runPasses.
  destruct (runPasses testFilesGlob (repeat _ _) executionResults p) as [[rs|e] p'];
    [apply IH | reflexivity].
Qed.

(** The passes return a report exactly when each of them, in turn,
    creates its instance, loads its tree and disposes of the instance. *)
Lemma runPasses_returns testFilesGlob passes : forall executionResults p report p',
  runPasses testFilesGlob passes executionResults p = (inl report, p') <->
  exists results,
    report = executionResults ++ results /\
    passesRun testFilesGlob passes p results p'.
Proof.
  induction passes as [|locs passes IH]; intros executionResults p report p'.
  - cbn [runPasses]. split.
    + intros [= <- <-]. exists []. rewrite app_nil_r. split; [reflexivity | constructor].
    + intros (results & -> & Hrun). inversion Hrun; subst. now rewrite app_nil_r.
  - cbn [runPasses]. destruct (execute testFilesGlob locs p) as [[result|e] p1] eqn:He.
    + apply execute_returns in He as (Hc & root & Hload & Hd & -> & ->).
      rewrite IH. split.
      * intros (results & -> & Hrun). exists (passResult locs p root :: results).
        rewrite <- app_assoc. split; [reflexivity|]. now constructor.
      * intros (results & -> & Hrun). inversion Hrun as [|? ? ? root' ? ? ? Hload' ? Hrest]; subst.
        assert (root' = root) as -> by congruence.
        eexists. rewrite <- app_assoc. split; [reflexivity | exact Hrest].
    + split; [discriminate|]. intros (results & _ & Hrun).
      inversion Hrun as [|? ? ? root ? ? Hc Hload Hd _]; subst.
      assert (Hret : execute testFilesGlob locs p
                     = (inl (passResult locs p root), afterPass locs p root)).
      { apply execute_returns. split; [exact Hc|]. exists root. auto. }
      congruence.
Qed.

(** The passes throw exactly when, after some passes that have run,
    the next one throws; what follows it is not run. *)
Lemma runPasses_throws testFilesGlob passes : forall executionResults p e p',
  runPasses testFilesGlob passes executionResults p = (inr e, p') <->
  exists done locs rest results pk,
    passes = done ++ locs :: rest /\
    passesRun testFilesGlob done p results pk /\
    execute testFilesGlob locs pk = (inr e, p').
Proof.
  induction passes as [|locs passes IH]; intros executionResults p e p'.
  - cbn [runPasses]. split; [discriminate|].
    intros (done & ? & ? & ? & ? & H & _). now destruct done.
  - cbn [runPasses]. destruct (execute testFilesGlob locs p) as [[result|e1] p1] eqn:He.
    + rewrite IH. pose proof He as He'.
      apply execute_returns in He' as (Hc & root & Hload & Hd & -> & ->). split.
      * intros (done & locs' & rest & results & pk & -> & Hrun & Hthrow).
        exists (locs :: done), locs', rest, (passResult locs p root :: results), pk.
        split; [reflexivity|]. split; [now constructor | exact Hthrow].
      * intros (done & locs' & rest & results & pk & Heq & Hrun & Hthrow).
        destruct done as [|d done]; cbn [app] in Heq; injection Heq as <- ->.
        -- inversion Hrun; subst. congruence.
        -- inversion Hrun as [|? ? ? root' ? ? ? Hload' ? Hrest]; subst.
           assert (root' = root) as -> by congruence.
           exists done, locs', rest. eauto.
    + split.
      * intros [= <- <-]. exists [], locs, passes, [], p.
        split; [reflexivity|]. split; [constructor | exact He].
      * intros (done & locs' & rest & results & pk & Heq & Hrun & Hthrow).
        destruct done as [|d done]; cbn [app] in Heq; injection Heq as <- ->.
        -- inversion Hrun; subst. congruence.
        -- inversion Hrun as [|? ? ? root ? ? Hc Hload Hd _]; subst.
           assert (Hret : execute testFilesGlob locs p
                          = (inl (passResult locs p root), afterPass locs p root)).
           { apply execute_returns. split; [exact Hc|]. exists root. auto. }
           congruence.
Qed.

Lemma passesRun_length testFilesGlob passes p results p' :
  passesRun testFilesGlob passes p results p' ->
  length results = length passes /\ wrappers p' = wrappers p + length passes.
Proof.
  induction 1 as [p|locs passes p root results p' _ _ _ _ [IHl IHw]]; [cbn; lia|].
  destruct (afterPass_fields locs p root) as (_ & _ & _ & Hw).
  cbn [length]. rewrite IHl, IHw, Hw. lia.
Qed.

Lemma schedule_length sets :
  length (schedule sets)
  = sum_list (map (fun set => Z.to_nat (numberofexecutions set)) sets).
Proof.
  induction sets as [|set sets IH]; [reflexivity|].
  cbn [schedule flat_map map sum_list]. fold (schedule sets).
  now rewrite length_app, repeat_length, IH.
Qed.

(** C9, as amended. With locator sets, the coordinator goes through
    the passes of the schedule - the sets in order, each as many times
    in a row as its number of executions - every pass with the
    locators of its set as the explicit selection and from the process
    that the pass before has left. It returns a report exactly when
    every one of these passes returns, and the report then holds the
    result of each pass, in order: as many entries as executions were
    asked for, [n] entries for one set with [n] executions. It throws
    exactly when one of the passes throws, after the passes before it
    have run; the passes after it are not run and there is no report. *)
Theorem passes_follow_schedule (testFilesGlob : list string)
    (sets : list LocatorSet) (p : Process) :
  (forall report p',
     executeTests testFilesGlob (Some sets) p = (inl report, p') <->
     passesRun testFilesGlob (schedule sets) p report p') /\
  (forall e p',
     executeTests testFilesGlob (Some sets) p = (inr e, p') <->
     exists done locs rest results pk,
       schedule sets = done ++ locs :: rest /\
       passesRun testFilesGlob done p results pk /\
       execute testFilesGlob locs pk = (inr e, p')) /\
  (forall report p',
     executeTests testFilesGlob (Some sets) p = (inl report, p') ->
     length report = sum_list (map (fun set => Z.to_nat (numberofexecutions set)) sets) /\
     wrappers p' = wrappers p + length report) /\
  (forall set report p',
     sets = [set] -> (0 <= numberofexecutions set)%Z ->
     executeTests testFilesGlob (Some sets) p = (inl report, p') ->
     Z.of_nat (length report) = numberofexecutions set /\
     passesRun testFilesGlob
       (repeat (locators set) (Z.to_nat (numberofexecutions set))) p report p').
Proof.
  assert (Hret : forall report p',
    executeTests testFilesGlob (Some sets) p = (inl report, p') <->
    passesRun testFilesGlob (schedule sets) p report p').
  { intros report p'. cbn [executeTests]. rewrite executeSets_runPasses, runPasses_returns.
    split; [intros (results & -> & H); exact H | intros H; exists report; auto]. }
  split; [exact Hret|]. split; [|split].
  - intros e p'. cbn [executeTests]. rewrite executeSets_runPasses. apply runPasses_throws.
  - intros report p' H. apply Hret, passesRun_length in H as [Hl Hw].
    rewrite Hw, Hl, schedule_length. auto.
  - intros set report p' -> Hn H. apply Hret in H.
    cbn [schedule flat_map] in H. rewrite app_nil_r in H. split; [|exact H].
    apply passesRun_length in H as [-> _]. rewrite repeat_length. lia.
Qed.

End ExecutionClaims.

(** ** The discovery walk *)
Section WalkFacts.
Context {core : Core}.

Lemma listTestsAndTestSuites_eq title file tests suites st :
  listTestsAndTestSuites (MkSuite title file tests suites) st =
  match suites with
  | None => (st, Throw)
  | Some cs =>
      match forEachSuite walkChild cs st with
      | (st', Throw) => (st', Throw)
      | (st', Ok) =>
          match tests with
          | None => (st', Throw)
          | Some ts => (fold_left emitTest ts st', Ok)
          end
      end
  end.
Proof. reflexivity. Qed.

Lemma emitTests_titles ts : forall st,
  ancestorTitles (fold_left emitTest ts st) = ancestorTitles st.
Proof. induction ts as [|t ts IH]; intros st; cbn; [reflexivity | now rewrite IH]. Qed.

Lemma emitTests_log ts : forall st,
  emitted (fold_left emitTest ts st)
  = emitted st ++ map (fun t => EmitTest (newTest (ancestorTitles st) t)) ts.
Proof.
  induction ts as [|t ts IH]; intros st; cbn [fold_left map].
  - now rewrite app_nil_r.
  - rewrite IH. cbn. now rewrite <- app_assoc.
Qed.

Lemma walkChild_effect c :
  walk_effect (listTestsAndTestSuites c) (fun titles => walkLog titles c) ->
  walk_effect (walkChild c)
    (fun titles =>
       EmitSuite (newTestSuite (orEmpty (suite_file c)) (titles ++ [suite_title c])
                    (suite_title c))
         :: walkLog (titles ++ [suite_title c]) c).
Proof.
  intros H st. unfold walkChild. specialize (H (enterSuite c st)).
  destruct (listTestsAndTestSuites c (enterSuite c st)) as [st1 [|]].
  - destruct H as [Ht Hl]. cbn [enterSuite ancestorTitles emitted] in *.
    unfold popTitle; cbn [ancestorTitles emitted].
    rewrite Ht, removelast_last, Hl, <- app_assoc. auto.
  - destruct H as [extra H]. cbn [enterSuite ancestorTitles] in H.
    exists ([suite_title c] ++ extra). now rewrite H, <- app_assoc.
Qed.

Lemma forEachSuite_effect cs :
  Forall (fun c => walk_effect (listTestsAndTestSuites c) (fun titles => walkLog titles c)) cs ->
  walk_effect (forEachSuite walkChild cs)
    (fun titles =>
       flat_map
         (fun c =>
            EmitSuite (newTestSuite (orEmpty (suite_file c)) (titles ++ [suite_title c])
                         (suite_title c))
              :: walkLog (titles ++ [suite_title c]) c) cs).
Proof.
  induction 1 as [|c cs Hc _ IH]; intros st; cbn [forEachSuite flat_map].
  - now rewrite app_nil_r.
  - pose proof (walkChild_effect c Hc st) as H1.
    destruct (walkChild c st) as [st1 [|]]; [|exact H1].
    destruct H1 as [Ht Hl]. specialize (IH st1).
    destruct (forEachSuite walkChild cs st1) as [st2 [|]].
    + destruct IH as [Ht' Hl']. rewrite Ht', Hl', Hl, Ht, <- !app_assoc. auto.
    + destruct IH as [extra IH]. exists extra. now rewrite IH, Ht.
Qed.

Lemma walk_spec s :
  walk_effect (listTestsAndTestSuites s) (fun titles => walkLog titles s).
Proof.
  induction s as [title file tests|title file tests cs IH] using Suite_tree_ind;
    intros st; rewrite listTestsAndTestSuites_eq.
  - exists []. now rewrite app_nil_r.
  - pose proof (forEachSuite_effect cs IH st) as H.
    destruct (forEachSuite walkChild cs st) as [st1 [|]]; [|exact H].
    destruct H as [Ht Hl]. destruct tests as [ts|].
    + rewrite emitTests_titles, emitTests_log, Hl, Ht, <- app_assoc. auto.
    + exists []. now rewrite app_nil_r.
Qed.

Lemma testSuitesOf_app l1 l2 :
  testSuitesOf (l1 ++ l2) = testSuitesOf l1 ++ testSuitesOf l2.
Proof. apply omap_app. Qed.









End WalkFacts.

(** ** Claims on identifiers and on the discovery walk *)
Section DiscoveryClaims.
Context {core : Core}.


Lemma testSuitesOf_In n log : In (EmitSuite n) log -> In n (testSuitesOf log).
Proof.
  induction log as [|[m|m] log IH]; cbn; [tauto| |].
  - intros [[= ->]|H]; [now left | right; auto].
  - intros [[=]|H]; auto.
Qed.

Lemma testsOf_In n log : In (EmitTest n) log -> In n (testsOf log).
Proof.
  induction log as [|[m|m] log IH]; cbn; [tauto| |].
  - intros [[=]|H]; auto.
  - intros [[= ->]|H]; [now left | right; auto].
Qed.

Lemma walkLog_suites s : forall titles ps,
  In ps (allSuites titles s) ->
  In (EmitSuite (newTestSuite (orEmpty (suite_file ps.2)) (ps.1 ++ [suite_title ps.2])
                   (suite_title ps.2)))
     (walkLog titles s).
Proof.
  induction s as [title file tests|title file tests cs IH] using Suite_tree_ind;
    intros titles ps; cbn [allSuites walkLog]; [contradiction|].
  rewrite in_app_iff, !in_flat_map. intros (c & Hc & Hin). left. exists c.
  split; [exact Hc|]. destruct Hin as [<-|Hin]; [now left | right].
  rewrite Forall_forall in IH. apply IH; [now apply list_elem_of_In | exact Hin].
Qed.

Lemma walkLog_tests s : forall titles pt,
  In pt (allTests titles s) -> In (EmitTest (newTest pt.1 pt.2)) (walkLog titles s).
Proof.
  induction s as [title file tests|title file tests cs IH] using Suite_tree_ind;
    intros titles pt; cbn [allTests walkLog]; rewrite !in_app_iff.
  - intros [Hin|[]]. right. apply in_map_iff in Hin as (t & <- & Hin).
    now apply (in_map (fun t => EmitTest (newTest titles t))).
  - intros [Hin|Hin].
    + right. apply in_map_iff in Hin as (t & <- & Hin).
      now apply (in_map (fun t => EmitTest (newTest titles t))).
    + left. rewrite in_flat_map in Hin |- *. destruct Hin as (c & Hc & Hin).
      exists c. split; [exact Hc|]. right.
      rewrite Forall_forall in IH. apply IH; [now apply list_elem_of_In | exact Hin].
Qed.

(** C6, as amended. In a walk that completes, the identifier of a
    suite is the hex digest of the repository id, a line feed and the
    qualified names of its chain (its ancestors and itself) joined by
    line feeds; the identifier of a test is the hex digest of the
    repository id, a line feed, the joined qualified names of its
    ancestor suites, a line feed and its own qualified name, which is
    the digest over the joined chain with the test's name at its end
    when the test has an ancestor suite, and has an empty line after
    the repository id when the test is at the top of the tree. Being a
    function of the repository id and the names, it is the same on
    every call. *)
Theorem identifier_digest_inputs (root : Suite) (st' : WState) :
  discover root = (st', Ok) ->
  emitted st' = walkLog [] root /\
  (forall ps, In ps (allSuites [] root) ->
     exists n, In n (testSuitesOf (emitted st')) /\
       ts_id n = MD5.md5hex
                   (repoID +:+ nl +:+
                    join nl (map (getIdentifier (orEmpty (suite_file ps.2)))
                               (ps.1 ++ [suite_title ps.2])))) /\
  (forall pt, In pt (allTests [] root) ->
     let names := map (getIdentifier (orEmpty (test_file pt.2))) pt.1 in
     let name := getIdentifier (orEmpty (test_file pt.2)) (test_title pt.2) in
     exists n, In n (testsOf (emitted st')) /\
       t_id n = MD5.md5hex (((repoID +:+ nl) +:+ join nl names) +:+ nl +:+ name) /\
       (pt.1 <> [] ->
        t_id n = MD5.md5hex (repoID +:+ nl +:+ join nl (names ++ [name]))) /\
       (pt.1 = [] -> t_id n = MD5.md5hex (repoID +:+ nl +:+ nl +:+ name))).
Proof.
  intros Hwalk. pose proof (walk_spec root (MkWState [] [])) as H.
  unfold discover in Hwalk. rewrite Hwalk in H. destruct H as [_ Hlog].
  cbn [emitted ancestorTitles app] in Hlog.
  split; [exact Hlog|]. rewrite Hlog. split.
  - intros ps Hin. eexists. split.
    + apply testSuitesOf_In, walkLog_suites, Hin.
    + reflexivity.
  - intros pt Hin names name. eexists. split; [|split; [|split]].
    + apply testsOf_In, walkLog_tests, Hin.
    + reflexivity.
    + intros Hne. cbn [newTest t_id]. unfold identifyTest, testDigestInput.
      fold names name. f_equal.
      rewrite join_snoc, !append_assoc; [reflexivity|].
      subst names. destruct pt.1; [contradiction | discriminate].
    + intros Hnil. cbn [newTest t_id]. unfold identifyTest, testDigestInput.
      fold names name. subst names. rewrite Hnil. cbn [map join].
      now rewrite append_empty_r, append_assoc.
Qed.

(** C7, as amended. For a fixed scope id, replacing one name of the
    chain by a different one changes the input of the digest; swapping
    two different names changes it when no name of the chain holds a
    line feed; the identifier - also the one the walk gives to a suite
    with such a chain of qualified names - then changes as well unless
    MD5 collides on the two inputs. *)
Theorem digest_input_sensitivity (scopeId : string) (l1 : list string)
    (a b : string) (l2 l3 : list string) :
  a <> b ->
  (digestInput scopeId (l1 ++ a :: l2) <> digestInput scopeId (l1 ++ b :: l2) /\
   (identify scopeId (l1 ++ a :: l2) = identify scopeId (l1 ++ b :: l2) ->
    md5Collision (digestInput scopeId (l1 ++ a :: l2))
      (digestInput scopeId (l1 ++ b :: l2)))) /\
  (Forall newlineFree (l1 ++ a :: l2 ++ b :: l3) ->
   digestInput scopeId (l1 ++ a :: l2 ++ b :: l3)
     <> digestInput scopeId (l1 ++ b :: l2 ++ a :: l3) /\
   (identify scopeId (l1 ++ a :: l2 ++ b :: l3)
      = identify scopeId (l1 ++ b :: l2 ++ a :: l3) ->
    md5Collision (digestInput scopeId (l1 ++ a :: l2 ++ b :: l3))
      (digestInput scopeId (l1 ++ b :: l2 ++ a :: l3)))) /\
  (forall filename titles titles' title title',
     scopeId = repoID ->
     map (getIdentifier filename) titles = l1 ++ a :: l2 ->
     map (getIdentifier filename) titles' = l1 ++ b :: l2 ->
     ts_id (newTestSuite filename titles title)
       = ts_id (newTestSuite filename titles' title') ->
     md5Collision (digestInput repoID (l1 ++ a :: l2))
       (digestInput repoID (l1 ++ b :: l2))).
Proof.
  intros Hab.
  assert (H1 : digestInput scopeId (l1 ++ a :: l2) <> digestInput scopeId (l1 ++ b :: l2)).
  { unfold digestInput. rewrite !join_split. intros H.
    do 3 apply append_cancel_l in H. apply append_cancel_r in H. contradiction. }
  split; [split; [exact H1 | intros H; split; assumption]|]. split.
  - intros Hfree.
    assert (H2 : digestInput scopeId (l1 ++ a :: l2 ++ b :: l3)
                 <> digestInput scopeId (l1 ++ b :: l2 ++ a :: l3)).
    { unfold digestInput. intros H. do 2 apply append_cancel_l in H.
      apply join_newline_inj in H.
      - apply app_inv_head in H. injection H as H _. contradiction.
      - rewrite !length_app. cbn. rewrite !length_app. reflexivity.
      - exact Hfree.
      - rewrite !Forall_app, !Forall_cons_iff, !Forall_app, !Forall_cons_iff in Hfree |- *.
        tauto. }
    split; [exact H2 | intros H; split; assumption].
  - intros filename titles titles' title title' -> Ht Ht' Hid.
    unfold newTestSuite in Hid. cbn [ts_id] in Hid. rewrite Ht, Ht' in Hid.
    split; assumption.
Qed.

Lemma forEachSuite_app (body : Suite -> WState -> WState * Outcome) l1 l2 : forall st,
  forEachSuite body (l1 ++ l2) st
  = match forEachSuite body l1 st with
    | (st', Ok) => forEachSuite body l2 st'
    | (st', Throw) => (st', Throw)
    end.
Proof.
  induction l1 as [|c l1 IH]; intros st; [reflexivity|].
  cbn [app forEachSuite]. destruct (body c st) as [st1 [|]]; [apply IH | reflexivity].
Qed.

(** C8, as amended. Take any child suite, after the siblings before it
    have been traversed. When its traversal returns, its title is
    popped and the stack is what it was before the child was entered,
    and the loop goes on with the next sibling from there; when the
    traversal throws, nothing is popped - the stack still holds the
    child's title and what was above it - and the walk of the parent
    ends there with the same error and the same state, whatever
    siblings and tests follow: none of them is traversed. *)
Theorem child_error_aborts_walk (before : list Suite) (childSuite : Suite)
    (st stb st1 : WState) (o : Outcome) :
  forEachSuite walkChild before st = (stb, Ok) ->
  listTestsAndTestSuites childSuite (enterSuite childSuite stb) = (st1, o) ->
  ancestorTitles stb = ancestorTitles st /\
  match o with
  | Ok =>
      ancestorTitles (popTitle st1) = ancestorTitles st /\
      forall after,
        forEachSuite walkChild (before ++ childSuite :: after) st
        = forEachSuite walkChild after (popTitle st1)
  | Throw =>
      (exists extra,
         ancestorTitles st1 = ancestorTitles st ++ suite_title childSuite :: extra) /\
      forall title file tests after,
        listTestsAndTestSuites
          (MkSuite title file tests (Some (before ++ childSuite :: after))) st
        = (st1, Throw)
  end.
Proof.
  intros Hbefore Hwalk.
  assert (Hstack : ancestorTitles stb = ancestorTitles st).
  { pose proof (forEachSuite_effect before) as H.
    assert (Hall : Forall (fun c => walk_effect (listTestsAndTestSuites c)
                                      (fun titles => walkLog titles c)) before).
    { apply Forall_forall. intros c _. apply walk_spec. }
    specialize (H Hall st). rewrite Hbefore in H. apply H. }
  split; [exact Hstack|].
  pose proof (walkChild_effect childSuite (walk_spec childSuite) stb) as H.
  unfold walkChild in H. rewrite Hwalk in H. destruct o.
  - split; [rewrite <- Hstack; apply H|].
    intros after. rewrite forEachSuite_app, Hbefore. cbn [forEachSuite].
    unfold walkChild. now rewrite Hwalk.
  - split.
    + pose proof (walk_spec childSuite (enterSuite childSuite stb)) as H'.
      rewrite Hwalk in H'. destruct H' as [extra H'].
      exists extra. rewrite H'. cbn [enterSuite ancestorTitles].
      now rewrite <- app_assoc, Hstack.
    + intros title file tests after. rewrite listTestsAndTestSuites_eq.
      rewrite forEachSuite_app, Hbefore. cbn [forEachSuite].
      unfold walkChild. now rewrite Hwalk.
Qed.

End DiscoveryClaims.

(** ** The claims on concrete trees *)

(** End-to-end scenario of the specification: nothing blocklisted, the
    walk emits one suite node and three test nodes. *)
Section NothingBlocked.
#[local] Existing Instance Sample.nothingBlocked.

Example discover_tree :
  map (fun e => match e with
                | EmitSuite n => (ts_name n, ts_id n, ts_parentSuiteID n)
                | EmitTest n => (t_name n, t_id n, t_suiteID n)
                end) (emitted (discover Sample.tree).1)
  = [("Login (a.js)", "ef8dde1a3ae93f0d1d173acf78ac4683", None);
     ("succeeds (a.js)", "f35bb8100e17c4042038cb5a72563dce",
      Some "ef8dde1a3ae93f0d1d173acf78ac4683");
     ("fails (a.js)", "1e5487ed866c46d515da1e898fcb8c5a",
      Some "ef8dde1a3ae93f0d1d173acf78ac4683");
     ("health check (b.js)", "d12ad20890cf53a6fc93819af34e394b", None)].
Proof. vm_compute. reflexivity. Qed.



(** C6 on the tree of the scenario, whose walk completes. *)
Lemma identifier_digest_inputs_witness :
  discover Sample.tree = ((discover Sample.tree).1, Ok) /\
  emitted (discover Sample.tree).1 = walkLog [] Sample.tree.
Proof.
  assert (H : discover Sample.tree = ((discover Sample.tree).1, Ok)) by reflexivity.
  split; [exact H|].
  exact (proj1 (identifier_digest_inputs Sample.tree _ H)).
Defined.

(** C6, counterexample. The test "health check" is at the top of the
    tree, so its chain is its own qualified name alone; its identifier
    is the digest of the repository id, an empty line and that name, not
    the digest of the repository id, a line feed and the joined chain. *)
Lemma top_level_test_id_not_chain_digest :
  In (newTest [] (MkTest "health check" (Some "b.js")))
    (testsOf (emitted (discover Sample.tree).1)) /\
  t_name (newTest [] (MkTest "health check" (Some "b.js"))) = "health check (b.js)" /\
  t_id (newTest [] (MkTest "health check" (Some "b.js")))
    = MD5.md5hex ("repo-1" +:+ nl +:+ nl +:+ "health check (b.js)") /\
  t_id (newTest [] (MkTest "health check" (Some "b.js")))
    <> MD5.md5hex ("repo-1" +:+ nl +:+ join nl ([] ++ ["health check (b.js)"])).
Proof.
  split; [cbn; auto|]. split; [reflexivity|]. split; [reflexivity|].
  vm_compute. discriminate.
Qed.

(** C8 on a second child suite whose traversal throws: the first
    child "A" has been traversed and popped, the third child "C" is
    never reached. *)
Lemma child_error_aborts_walk_witness :
  forEachSuite walkChild [Fixture.soundSuite] (MkWState [] [])
    = (popTitle
         (listTestsAndTestSuites Fixture.soundSuite
            (enterSuite Fixture.soundSuite (MkWState [] []))).1, Ok) /\
  (exists st1,
     listTestsAndTestSuites Fixture.unsoundSuite
       (enterSuite Fixture.unsoundSuite
          (popTitle
             (listTestsAndTestSuites Fixture.soundSuite
                (enterSuite Fixture.soundSuite (MkWState [] []))).1))
     = (st1, Throw) /\
     ancestorTitles st1 = ["B"] /\
     map ts_name (testSuitesOf (emitted st1)) = ["A (a.js)"; "B (a.js)"] /\
     listTestsAndTestSuites
       (MkSuite "" None (Some [])
          (Some ([Fixture.soundSuite] ++ Fixture.unsoundSuite :: [Fixture.lastSuite])))
       (MkWState [] [])
     = (st1, Throw)).
Proof.
  assert (Hbefore : forEachSuite walkChild [Fixture.soundSuite] (MkWState [] [])
    = (popTitle
         (listTestsAndTestSuites Fixture.soundSuite
            (enterSuite Fixture.soundSuite (MkWState [] []))).1, Ok))
    by reflexivity.
  split; [exact Hbefore|]. eexists.
  assert (Hwalk : forall stb,
    listTestsAndTestSuites Fixture.unsoundSuite (enterSuite Fixture.unsoundSuite stb)
    = (enterSuite Fixture.unsoundSuite stb, Throw)) by reflexivity.
  split; [apply Hwalk|]. split; [reflexivity|]. split; [reflexivity|].
  exact (proj2 (proj2 (child_error_aborts_walk [Fixture.soundSuite] Fixture.unsoundSuite
                         (MkWState [] []) _ _ Throw Hbefore (Hwalk _)))
           "" None (Some []) [Fixture.lastSuite]).
Defined.

(** C8, counterexample. The first child suite "A" has no [suites]
    array, so its traversal throws: the walk ends with the error, the
    stack, empty before "A" was entered, still holds "A", and the
    sibling "B" is never visited. *)
Lemma failing_child_title_not_popped :
  (discover Sample.brokenTree).2 = Throw /\
  ancestorTitles (discover Sample.brokenTree).1 = ["A"] /\
  ancestorTitles (discover Sample.brokenTree).1 <> ancestorTitles (MkWState [] []) /\
  map ts_name (testSuitesOf (emitted (discover Sample.brokenTree).1)) = ["A (a.js)"].
Proof.
  split; [reflexivity|]. split; [reflexivity|]. split; [|reflexivity].
  vm_compute. discriminate.
Qed.

End NothingBlocked.

(** The test "fails" is blocklisted. *)
Section FailsBlocked.
#[local] Existing Instance Sample.failsBlocked.

(** End-to-end scenario of the specification: run everything. *)
Example run_everything :
  let r := filterSpecs [] Sample.tree newRunner in
  allTests [] r.1 = [Sample.healthCheck; Sample.succeeds] /\
  blocklistedTests r.2 = [blocklistedResult Sample.fails].
Proof. vm_compute. auto. Qed.

(** C1 on the first pass of a process that selects the blocklisted
    test "fails". *)
Lemma blocklisted_test_recorded_iff_selected_witness :
  0 < size (testlocator (setTestlocator ["a.js##Login##fails"] newRunner)) /\
  In Sample.fails (allTests [] Sample.tree) /\
  isBlocklistedLocator (locatorOfTest Sample.fails) = true /\
  ~ In Sample.fails
      (allTests []
         (wrappedRun 1 Sample.tree
            (setTestlocator ["a.js##Login##fails"] newRunner)).1).
Proof.
  assert (Hsize : 0 < size (testlocator (setTestlocator ["a.js##Login##fails"] newRunner)))
    by (vm_compute; lia).
  assert (Hin : In Sample.fails (allTests [] Sample.tree)) by (cbn; auto).
  assert (Hblocked : isBlocklistedLocator (locatorOfTest Sample.fails) = true)
    by reflexivity.
  split; [exact Hsize|]. split; [exact Hin|]. split; [exact Hblocked|].
  exact (proj1 (blocklisted_test_recorded_iff_selected 0 Sample.tree _ Sample.fails
                  Hsize Hin Hblocked)).
Defined.

(** C1, counterexample. The explicit selection holds "health check"
    only; the test "fails" matches the blocklist predicate and is
    evaluated by the filter, but it is not recorded as blocklisted: the
    pass records nothing. *)
Lemma blocklisted_unselected_test_not_recorded :
  0 < size (testlocator (setTestlocator ["b.js##health check"] newRunner)) /\
  In Sample.fails (allTests [] Sample.tree) /\
  isBlocklistedLocator (locatorOfTest Sample.fails) = true /\
  blocklistedTests
    (wrappedRun 1 Sample.tree (setTestlocator ["b.js##health check"] newRunner)).2
  = [] /\
  ~ In (blocklistedResult Sample.fails)
      (blocklistedTests
         (wrappedRun 1 Sample.tree (setTestlocator ["b.js##health check"] newRunner)).2).
Proof.
  split; [vm_compute; lia|]. split; [cbn; auto|]. split; [reflexivity|].
  assert (H : blocklistedTests
                (wrappedRun 1 Sample.tree
                   (setTestlocator ["b.js##health check"] newRunner)).2 = [])
    by (vm_compute; reflexivity).
  split; [exact H|]. rewrite H. intros [].
Qed.

End FailsBlocked.

(** The suite "Login" is blocklisted, with everything below it. *)
Section LoginBlocked.
#[local] Existing Instance Sample.loginBlocked.
#[local] Existing Instance Sample.loginEngine.

(** C2 on the blocklisted suite "Login". *)
Lemma blocklisted_suite_recorded_not_pruned_witness :
  isBlocklistedLocator (locatorOfSuite ([], Sample.loginSuite)) = true /\
  recordedSuites newRunner
    (filterSpecs ([] ++ [suite_title Sample.loginSuite]) Sample.loginSuite
       (checkSuite [] Sample.loginSuite newRunner)).2
  = blocklistedSuiteResult ([], Sample.loginSuite)
      :: map blocklistedSuiteResult
           (blockedSuites ([] ++ [suite_title Sample.loginSuite]) Sample.loginSuite).
Proof.
  assert (H : isBlocklistedLocator (locatorOfSuite ([], Sample.loginSuite)) = true)
    by reflexivity.
  split; [exact H|].
  exact (proj1 (blocklisted_suite_recorded_not_pruned [] Sample.loginSuite newRunner H)).
Defined.

(** C2, counterexample. The locator of the suite "Login" matches the
    blocklist predicate and the suite gets its suite-level record, but
    the subtree is not pruned: its tests are evaluated one by one and,
    matching the predicate themselves, each appears as a test-level
    blocklisted entry. Under a predicate that matches the locator of
    the suite alone, the tests of the suite stay in the run set. *)
Lemma blocklisted_suite_tests_still_evaluated :
  isBlocklistedLocator (locatorOfSuite ([], Sample.loginSuite)) = true /\
  blocklistedSuites (filterSpecs [] Sample.tree newRunner).2
    = [blocklistedSuiteResult ([], Sample.loginSuite)] /\
  blocklistedTests (filterSpecs [] Sample.tree newRunner).2
    = [blocklistedResult Sample.succeeds; blocklistedResult Sample.fails] /\
  @isBlocklistedLocator Sample.loginAloneBlocked
    (@locatorOfSuite Sample.loginAloneBlocked ([], Sample.loginSuite)) = true /\
  @allTests [] (@filterSpecs Sample.loginAloneBlocked [] Sample.tree
                  (@newRunner Sample.loginAloneBlocked)).1
    = [Sample.healthCheck; Sample.succeeds; Sample.fails].
Proof. vm_compute. auto 6. Qed.

(** C10 on a first pass that selects "health check" alone: the
    blocklisted suite "Login" is in the suite results. *)
Lemma suite_results_not_filtered_witness :
  0 < size (list_to_set (C:=gset string) ["b.js##health check"]) /\
  loadedTree ["*.js"] ["b.js##health check"] (world (newProcess tt)) = Some Sample.tree /\
  (execute ["*.js"] ["b.js##health check"] (newProcess tt)).1
    = inl (passResult ["b.js##health check"] (newProcess tt) Sample.tree) /\
  In ([], Sample.loginSuite) (allSuites [] Sample.tree) /\
  isBlocklistedLocator (locatorOfSuite ([], Sample.loginSuite)) = true /\
  In (blocklistedSuiteResult ([], Sample.loginSuite))
    (testSuiteResults (passResult ["b.js##health check"] (newProcess tt) Sample.tree)).
Proof.
  assert (Hsize : 0 < size (list_to_set (C:=gset string) ["b.js##health check"]))
    by (vm_compute; lia).
  assert (Hload : loadedTree ["*.js"] ["b.js##health check"] (world (newProcess tt))
                  = Some Sample.tree) by reflexivity.
  assert (Hret : (execute ["*.js"] ["b.js##health check"] (newProcess tt)).1
                 = inl (passResult ["b.js##health check"] (newProcess tt) Sample.tree))
    by (vm_compute; reflexivity).
  assert (Hin : In ([], Sample.loginSuite) (allSuites [] Sample.tree)) by (cbn; auto).
  assert (Hblocked : isBlocklistedLocator (locatorOfSuite ([], Sample.loginSuite)) = true)
    by reflexivity.
  split; [exact Hsize|]. split; [exact Hload|]. split; [exact Hret|].
  split; [exact Hin|]. split; [exact Hblocked|].
  exact (proj1 (proj2 (proj2
           (suite_results_not_filtered ["*.js"] ["b.js##health check"] (newProcess tt)
              Sample.tree _ ([], Sample.loginSuite) Hsize Hload Hret Hin Hblocked)))).
Defined.

(** C3, the failing input. One locator set asks for two executions;
    the suite "Login" is blocklisted. Both passes return. The first
    pass reports its one blocklisted suite result; the second pass
    reports three, the result recorded during the first pass and two of
    its own: the accumulator of the first pass is part of the result of
    the second. *)
Theorem earlier_pass_records_in_later_result :
  exists report,
    (executeTests ["*.js"] (Some [MkLocatorSet 2 ["b.js##health check"]])
       (newProcess tt)).1 = inl report /\
    map testSuiteResults report
    = [[blocklistedSuiteResult ([], Sample.loginSuite)];
       [blocklistedSuiteResult ([], Sample.loginSuite);
        blocklistedSuiteResult ([], Sample.loginSuite);
        blocklistedSuiteResult ([], Sample.loginSuite)]].
Proof. eexists. split; vm_compute; reflexivity. Qed.

End LoginBlocked.

(** With an engine whose instances can be disposed of. *)
Section CountedPasses.
#[local] Existing Instance Sample.nothingBlocked.
#[local] Existing Instance Fixture.modernEngine.

(** C9 on one set of three executions: three passes run, one after
    the other, and the report holds their three results. *)
Lemma passes_follow_schedule_witness :
  exists report p',
    executeTests ["*.js"] (Some [MkLocatorSet 3 ["b.js##health check"]]) (newProcess 0)
    = (inl report, p') /\
    passesRun ["*.js"]
      [["b.js##health check"]; ["b.js##health check"]; ["b.js##health check"]]
      (newProcess 0) report p' /\
    length report = 3 /\
    world p' = 3.
Proof.
  assert (He : exists report p',
    executeTests ["*.js"] (Some [MkLocatorSet 3 ["b.js##health check"]]) (newProcess 0)
    = (inl report, p') /\ world p' = 3).
  { eexists. eexists. split; vm_compute; reflexivity. }
  destruct He as (report & p' & He & Hworld).
  destruct (passes_follow_schedule ["*.js"] [MkLocatorSet 3 ["b.js##health check"]]
              (@newProcess _ Fixture.modernEngine 0)) as (Hret & _ & Hlen & _).
  exists report, p'. split; [exact He|].
  split; [exact (proj1 (Hret report p') He)|].
  split; [exact (proj1 (Hlen report p' He)) | exact Hworld].
Defined.

End CountedPasses.

(** With an engine whose instances have no [dispose]. *)
Section AgedEngine.
#[local] Existing Instance Sample.nothingBlocked.
#[local] Existing Instance Fixture.agedEngine.

(** C9, counterexample. One set asks for three executions. The first
    pass runs the engine and then throws at [mocha.dispose()]:
    [executeTests] ends with that error, the engine has run once and
    not three times, and there is no report. *)
Lemma throwing_pass_ends_schedule :
  schedule [MkLocatorSet 3 ["b.js##health check"]]
    = [["b.js##health check"]; ["b.js##health check"]; ["b.js##health check"]] /\
  (executeTests ["*.js"] (Some [MkLocatorSet 3 ["b.js##health check"]])
     (newProcess 0)).1 = inr DisposeError /\
  world (executeTests ["*.js"] (Some [MkLocatorSet 3 ["b.js##health check"]])
           (newProcess 0)).2 = 1 /\
  wrappers (executeTests ["*.js"] (Some [MkLocatorSet 3 ["b.js##health check"]])
              (newProcess 0)).2 = 1.
Proof. split; [reflexivity|]. split; [|split]; vm_compute; reflexivity. Qed.

End AgedEngine.


(** C7, counterexample. A swap: the names "x" and "x", line feed, "x"
    are different, but a chain holding the one then the other is joined
    to the same lines as the chain holding them in the other order, so
    the swap does not change the identifier. A single name: identifiers
    have 32 hexadecimal digits while names are unbounded, so whatever
    the scope id and the rest of the chain, two different names for one
    place of the chain give the same identifier; and so do two
    different titles of a suite of [a.js] in the walk. *)
Lemma changed_names_same_identifier :
  ("x" <> "x" +:+ nl +:+ "x" /\
   digestInput "repo-1" ["x"; "x" +:+ nl +:+ "x"]
     = digestInput "repo-1" ["x" +:+ nl +:+ "x"; "x"] /\
   identify "repo-1" ["x"; "x" +:+ nl +:+ "x"]
     = identify "repo-1" ["x" +:+ nl +:+ "x"; "x"]) /\
  (forall scopeId l1 l2,
     exists a b, a <> b /\
       identify scopeId (l1 ++ a :: l2) = identify scopeId (l1 ++ b :: l2)) /\
  (exists title title', title <> title' /\
     ts_id (@newTestSuite Sample.nothingBlocked "a.js" [title] title)
     = ts_id (@newTestSuite Sample.nothingBlocked "a.js" [title'] title')).
Proof.
  split; [|split].
  - split; [discriminate|]. split; vm_compute; reflexivity.
  - intros scopeId l1 l2.
    exact (md5hex_not_injective (fun a => digestInput scopeId (l1 ++ a :: l2))).
  - destruct (md5hex_not_injective
                (fun title =>
                   digestInput (@repoID Sample.nothingBlocked)
                     (map (@getIdentifier Sample.nothingBlocked "a.js") [title])))
      as (title & title' & Hne & H).
    exists title, title'. split; [exact Hne | exact H].
Qed.

(** C7 on a chain in which "Login" is replaced by "Logout". *)
Lemma digest_input_sensitivity_witness :
  "Login" <> "Logout" /\
  digestInput "repo-1" ([] ++ "Login" :: ["succeeds"])
    <> digestInput "repo-1" ([] ++ "Logout" :: ["succeeds"]).
Proof.
  assert (H : "Login" <> "Logout") by discriminate.
  split; [exact H|].
  exact (proj1 (proj1
           (@digest_input_sensitivity Sample.nothingBlocked
              "repo-1" [] "Login" "Logout" ["succeeds"] [] H))).
Defined.

(** * Further properties *)

(** ** The discovery walk *)
Section WalkProperties.
Context {core : Core}.

Lemma forEachSuite_outcome cs :
  Forall (fun c => forall st, (listTestsAndTestSuites c st).2 = Ok <-> hasArrays c = true) cs ->
  forall st, (forEachSuite walkChild cs st).2 = Ok <-> forallb hasArrays cs = true.
Proof.
  induction 1 as [|c cs Hc _ IH]; intros st; cbn [forEachSuite forallb]; [tauto|].
  unfold walkChild. specialize (Hc (enterSuite c st)).
  destruct (listTestsAndTestSuites c (enterSuite c st)) as [st1 [|]]; cbn [snd] in *.
  - rewrite IH. destruct Hc as [Hc _]. rewrite (Hc eq_refl). cbn. tauto.
  - destruct (hasArrays c); [|cbn; split; discriminate].
    destruct Hc as [_ Hc]. discriminate (Hc eq_refl).
Qed.

Lemma walk_outcome s : forall st,
  (listTestsAndTestSuites s st).2 = Ok <-> hasArrays s = true.
Proof.
  induction s as [title file tests|title file tests cs IH] using Suite_tree_ind;
    intros st; rewrite listTestsAndTestSuites_eq; cbn [hasArrays].
  - cbn. split; discriminate.
  - pose proof (forEachSuite_outcome cs IH st) as H.
    destruct (forEachSuite walkChild cs st) as [st1 [|]]; cbn [snd] in *.
    + destruct H as [H _]. rewrite (H eq_refl).
      destruct tests; cbn; [tauto|]. split; discriminate.
    + split; [discriminate|]. intros [H' _]%andb_prop.
      destruct H as [_ H]. discriminate (H H').
Qed.

(** X1. The walk of a tree completes exactly when every suite of the
    tree, the root included, has both its [suites] and its [tests]
    array; otherwise it ends with an error. *)
Theorem discover_completes_iff_arrays (root : Suite) :
  (discover root).2 = Ok <-> hasArrays root = true.
Proof. apply walk_outcome. Qed.

Lemma testsOf_app l1 l2 : testsOf (l1 ++ l2) = testsOf l1 ++ testsOf l2.
Proof. apply omap_app. Qed.

Lemma testSuitesOf_tests titles ts :
  testSuitesOf (map (fun t => EmitTest (newTest titles t)) ts) = [].
Proof. induction ts as [|t ts IH]; [reflexivity | exact IH]. Qed.

Lemma testsOf_tests titles ts :
  testsOf (map (fun t => EmitTest (newTest titles t)) ts)
  = map testNode (map (pair titles) ts).
Proof. induction ts as [|t ts IH]; [reflexivity|]. cbn. now f_equal. Qed.

Lemma walkLog_testSuites s : forall titles,
  testSuitesOf (walkLog titles s) = map suiteNode (allSuites titles s).
Proof.
  induction s as [title file tests|title file tests cs IH] using Suite_tree_ind;
    intros titles; cbn [walkLog allSuites];
    rewrite testSuitesOf_app, testSuitesOf_tests, app_nil_r; [reflexivity|].
  induction IH as [|c cs Hc _ IHcs]; [reflexivity|].
  cbn [flat_map]. rewrite testSuitesOf_app, map_app, IHcs. f_equal.
  change (testSuitesOf (EmitSuite ?n :: ?w)) with (n :: testSuitesOf w).
  rewrite Hc. reflexivity.
Qed.

Lemma walkLog_testNodes s : forall titles,
  Permutation (testsOf (walkLog titles s)) (map testNode (allTests titles s)).
Proof.
  induction s as [title file tests|title file tests cs IH] using Suite_tree_ind;
    intros titles; cbn [walkLog allTests];
    rewrite testsOf_app, testsOf_tests, map_app.
  - cbn. now rewrite app_nil_r.
  - rewrite Permutation_app_comm. apply Permutation_app_head.
    induction IH as [|c cs Hc _ IHcs]; [constructor|].
    cbn [flat_map]. rewrite testsOf_app, map_app.
    change (testsOf (EmitSuite ?n :: ?w)) with (testsOf w).
    apply Permutation_app; [apply Hc | exact IHcs].
Qed.

Lemma completed_walk_nodes (root : Suite) :
  (discover root).2 = Ok ->
  testSuitesOf (emitted (discover root).1) = map suiteNode (allSuites [] root) /\
  Permutation (testsOf (emitted (discover root).1)) (map testNode (allTests [] root)) /\
  length (emitted (discover root).1)
    = length (allSuites [] root) + length (allTests [] root).
Proof.
  intros Hok. pose proof (walk_spec root (MkWState [] [])) as H.
  unfold discover in *. destruct (listTestsAndTestSuites root _) as [st' o].
  cbn [fst snd] in *. subst o. destruct H as [_ Hlog].
  cbn [emitted ancestorTitles app] in Hlog. rewrite Hlog.
  split; [apply walkLog_testSuites|]. split; [apply walkLog_testNodes|].
  assert (Hlen : forall log, length log = length (testSuitesOf log) + length (testsOf log)).
  { unfold testSuitesOf, testsOf.
    induction log as [|[m|m] log IHl]; cbn in *; lia. }
  rewrite Hlen, walkLog_testSuites, (Permutation_length (walkLog_testNodes root [])).
  now rewrite !length_map.
Qed.

(** X2. A walk that completes emits one suite node per suite below the
    root, in pre-order (a suite before its descendants, siblings in
    order), and one test node per test of the tree. *)
Theorem discover_emits_each_node_once (root : Suite) :
  (discover root).2 = Ok ->
  testSuitesOf (emitted (discover root).1) = map suiteNode (allSuites [] root) /\
  Permutation (testsOf (emitted (discover root).1)) (map testNode (allTests [] root)) /\
  length (emitted (discover root).1)
    = length (allSuites [] root) + length (allTests [] root).
Proof. apply completed_walk_nodes. Qed.

Lemma linked_nil : linked [].
Proof. intros [|? ?] n l2 H; discriminate. Qed.

Lemma linked_snoc log e :
  linked log ->
  (forall n i, e = EmitSuite n -> ts_parentSuiteID n = Some i ->
     exists sn, In sn (testSuitesOf log) /\ ts_id sn = i) ->
  linked (log ++ [e]).
Proof.
  intros Hlog He l1 n l2 Heq i Hi.
  destruct l2 as [|x l2 _] using rev_ind.
  - apply app_inj_tail in Heq as [-> ->]. eauto.
  - change (l1 ++ EmitSuite n :: l2 ++ [x]) with (l1 ++ (EmitSuite n :: l2) ++ [x]) in Heq.
    rewrite app_assoc in Heq. apply app_inj_tail in Heq as [-> _]. eauto.
Qed.

Lemma sameSuiteFile_eq title file tests suites :
  sameSuiteFile (MkSuite title file tests suites) <->
  Forall (fun c => orEmpty (suite_file c) = orEmpty file) (default [] suites) /\
  Forall sameSuiteFile (default [] suites).
Proof.
  cbn [sameSuiteFile]. destruct suites as [cs|]; cbn [default from_option id].
  - induction cs as [|c cs IH].
    + intuition constructor.
    + rewrite !Forall_cons_iff. tauto.
  - intuition constructor.
Qed.

Lemma newTestSuite_parent filename titles title title' i :
  ts_parentSuiteID (newTestSuite filename (titles ++ [title]) title') = Some i ->
  titles <> [] /\ i = identify repoID (map (getIdentifier filename) titles).
Proof.
  unfold newTestSuite; cbn [ts_parentSuiteID].
  rewrite map_app. cbn [map]. rewrite removelast_last.
  destruct titles as [|x titles]; cbn [map]; [discriminate|].
  intros [= <-]. split; [discriminate | reflexivity].
Qed.

Lemma emitTests_linked ts : forall st,
  linked (emitted st) -> linked (emitted (fold_left emitTest ts st)).
Proof.
  induction ts as [|t ts IH]; intros st H; [exact H|].
  cbn [fold_left]. apply IH. cbn [emitTest emitted].
  apply linked_snoc; [exact H | discriminate].
Qed.

Lemma walkChild_linked c st parentFile :
  walk_keeps_linked c -> sameSuiteFile c -> linked (emitted st) ->
  ancestorTitles st = [] \/
  (orEmpty (suite_file c) = parentFile /\
   exists sn, In sn (testSuitesOf (emitted st)) /\
     ts_id sn = identify repoID (map (getIdentifier parentFile) (ancestorTitles st))) ->
  linked (emitted (walkChild c st).1).
Proof.
  intros IH Hsame Hlinked Hown. destruct c as [title file tests suites].
  apply sameSuiteFile_eq in Hsame as [Hfiles Hchildren].
  specialize (IH (enterSuite (MkSuite title file tests suites) st)).
  unfold walkChild.
  destruct (listTestsAndTestSuites _ (enterSuite _ st)) as [st1 o].
  assert (H : linked (emitted st1)).
  { apply IH.
    - cbn [enterSuite emitted]. apply linked_snoc; [exact Hlinked|].
      intros n i [= <-] Hi. cbn [suite_title suite_file] in Hi.
      apply newTestSuite_parent in Hi as [Hne ->].
      destruct Hown as [Hnil | [Hfile Hnode]]; [contradiction|].
      cbn [suite_file] in Hfile. rewrite Hfile. exact Hnode.
    - exact Hchildren.
    - right. split; [exact Hfiles|]. cbn [enterSuite emitted ancestorTitles].
      eexists. rewrite testSuitesOf_app, in_app_iff. split; [right; now left|].
      reflexivity. }
  destruct o; exact H.
Qed.

Lemma forEachSuite_linked cs parentFile :
  Forall walk_keeps_linked cs -> Forall sameSuiteFile cs ->
  forall st, linked (emitted st) ->
  ancestorTitles st = [] \/
  (Forall (fun c => orEmpty (suite_file c) = parentFile) cs /\
   exists sn, In sn (testSuitesOf (emitted st)) /\
     ts_id sn = identify repoID (map (getIdentifier parentFile) (ancestorTitles st))) ->
  linked (emitted (forEachSuite walkChild cs st).1).
Proof.
  induction 1 as [|c cs Hc _ IH]; intros Hsame st Hlinked Hown; [exact Hlinked|].
  apply Forall_cons_iff in Hsame as [Hsc Hscs]. cbn [forEachSuite].
  assert (Hown1 : ancestorTitles st = [] \/
    (orEmpty (suite_file c) = parentFile /\
     exists sn, In sn (testSuitesOf (emitted st)) /\
       ts_id sn = identify repoID (map (getIdentifier parentFile) (ancestorTitles st)))).
  { destruct Hown as [Hnil | [Hfiles Hnode]]; [now left | right].
    apply Forall_cons_iff in Hfiles as [Hfile _]. auto. }
  pose proof (walkChild_linked c st parentFile Hc Hsc Hlinked Hown1) as H.
  pose proof (walkChild_effect c (walk_spec c) st) as Heff.
  destruct (walkChild c st) as [st1 [|]]; [|exact H].
  destruct Heff as [Ht Hl]. apply IH; [exact Hscs | exact H |].
  rewrite Ht. destruct Hown as [Hnil | [Hfiles (sn & Hin & Hid)]]; [now left | right].
  apply Forall_cons_iff in Hfiles as [_ Hfiles]. split; [exact Hfiles|].
  exists sn. rewrite Hl, testSuitesOf_app, in_app_iff. auto.
Qed.

Lemma walk_linked s : walk_keeps_linked s.
Proof.
  induction s as [title file tests|title file tests cs IH] using Suite_tree_ind;
    intros st Hlinked Hchildren Hown; rewrite listTestsAndTestSuites_eq.
  - exact Hlinked.
  - cbn [suite_suites suite_file default from_option id] in Hchildren.
    pose proof (forEachSuite_linked cs (orEmpty file) IH Hchildren st Hlinked Hown) as H.
    destruct (forEachSuite walkChild cs st) as [st1 [|]]; [|exact H].
    destruct tests as [ts|]; [|exact H].
    cbn [fst] in *. now apply emitTests_linked.
Qed.

(** X3. In the log of a discovery walk over a tree in which every
    nested suite has the file of the suite that holds it, a suite node
    with a parent id comes after a suite node with that id; this holds
    for walks that end in an error too. *)
Theorem parent_ids_resolve (root : Suite) (l1 : list Emit) (n : TestSuite)
    (l2 : list Emit) (i : string) :
  suiteFilesAgree root ->
  emitted (discover root).1 = l1 ++ EmitSuite n :: l2 ->
  ts_parentSuiteID n = Some i ->
  exists sn, In sn (testSuitesOf l1) /\ ts_id sn = i.
Proof.
  intros Hfiles Hlog Hi.
  refine (walk_linked root (MkWState [] []) linked_nil Hfiles _ l1 n l2 Hlog i Hi).
  now left.
Qed.

(** X4. Inside a suite, a child suite and a test with the same title
    and the same file get the same identifier: the digest of a test is
    taken over the same lines as the digest of a suite at that place. *)
Theorem suite_and_test_share_identifier (root : Suite)
    (ps : list string * Suite) (pt : list string * MochaTest) :
  (discover root).2 = Ok ->
  In ps (allSuites [] root) ->
  In pt (allTests [] root) ->
  pt.1 <> [] ->
  ps.1 = pt.1 ->
  suite_title ps.2 = test_title pt.2 ->
  orEmpty (suite_file ps.2) = orEmpty (test_file pt.2) ->
  In (suiteNode ps) (testSuitesOf (emitted (discover root).1)) /\
  In (testNode pt) (testsOf (emitted (discover root).1)) /\
  ts_id (suiteNode ps) = t_id (testNode pt).
Proof.
  intros Hok Hps Hpt Hne Hchain Htitle Hfile.
  destruct (completed_walk_nodes root Hok) as (Hsuites & Htests & _).
  split; [rewrite Hsuites; now apply in_map|].
  split; [eapply Permutation_in; [symmetry; exact Htests | now apply in_map]|].
  unfold suiteNode, testNode, newTestSuite, newTest. cbn [ts_id t_id].
  unfold identify, identifyTest, digestInput, testDigestInput.
  rewrite Hchain, Htitle, Hfile, map_app. cbn [map]. f_equal.
  rewrite join_snoc, !append_assoc; [reflexivity|].
  destruct pt.1; [contradiction | discriminate].
Qed.

(** X5. Identifiers have a fixed width: the identifier of every suite
    node and of every test node of a completed walk, whatever the
    titles, files and repository id, is a string of 32 lower-case
    hexadecimal digits. *)
Theorem identifiers_are_32_hex_digits (root : Suite) :
  (discover root).2 = Ok ->
  Forall (fun n => String.length (ts_id n) = 32 /\ allHex (ts_id n) = true)
    (testSuitesOf (emitted (discover root).1)) /\
  Forall (fun n => String.length (t_id n) = 32 /\ allHex (t_id n) = true)
    (testsOf (emitted (discover root).1)).
Proof.
  intros Hok.
  destruct (completed_walk_nodes root Hok) as (Hsuites & Htests & _).
  rewrite Hsuites. split.
  - apply Forall_forall. intros n Hn. apply list_elem_of_In, in_map_iff in Hn as (ps & <- & _).
    apply md5hex_hex32.
  - apply Forall_forall. intros n Hn. apply list_elem_of_In in Hn.
    apply (Permutation_in _ Htests), in_map_iff in Hn as (pt & <- & _).
    apply md5hex_hex32.
Qed.

End WalkProperties.

(** ** The locator filter *)
Section FilterProperties.
Context {core : Core}.

Lemma filterTests_all_included parentSuites ts : forall filteredTests st,
  Forall (fun t => disposition (testlocator st) parentSuites t = Include) ts ->
  fold_left (filterTest parentSuites) ts (filteredTests, st) = (filteredTests ++ ts, st).
Proof.
  induction ts as [|t ts IH]; intros filteredTests st H; cbn [fold_left].
  - now rewrite app_nil_r.
  - apply Forall_cons_iff in H as [Ht H].
    rewrite filterTest_disposition, Ht, IH by exact H. now rewrite <- app_assoc.
Qed.

Lemma forEachChild_all_included parentSuites cs :
  Forall filterSpecs_keeps_included cs ->
  forall st,
    Forall (fun pt => disposition (testlocator st) pt.1 pt.2 = Include)
      (flat_map (fun c => allTests (parentSuites ++ [suite_title c]) c) cs) ->
    (forEachChild
       (fun childSuite st0 =>
          filterSpecs (parentSuites ++ [suite_title childSuite]) childSuite
            (checkSuite parentSuites childSuite st0)) cs st).1 = cs.
Proof.
  induction 1 as [|c cs Hc _ IH]; intros st Hall; [reflexivity|].
  cbn [forEachChild flat_map] in *. apply Forall_app in Hall as [Hallc Hallcs].
  assert (Hsel : testlocator (checkSuite parentSuites c st) = testlocator st)
    by apply checkSuite_extends.
  specialize (Hc (parentSuites ++ [suite_title c]) (checkSuite parentSuites c st)).
  rewrite Hsel in Hc. specialize (Hc Hallc).
  destruct (filterSpecs_spec c (parentSuites ++ [suite_title c])
              (checkSuite parentSuites c st)) as (_ & _ & (_ & _ & Hsel1) & _).
  destruct (filterSpecs _ c _) as [c' st1]. cbn [fst snd] in *. subst c'.
  rewrite Hsel in Hsel1. specialize (IH st1). rewrite Hsel1 in IH. specialize (IH Hallcs).
  destruct (forEachChild _ cs st1) as [rest' st2]. cbn [fst] in *. now subst.
Qed.

Lemma filterSpecs_all_included s : filterSpecs_keeps_included s.
Proof.
  induction s as [title file tests|title file tests cs IH] using Suite_tree_ind;
    intros parentSuites st Hall; cbn [filterSpecs allTests] in *.
  - apply Forall_app in Hall as [Hown _]. rewrite Forall_map in Hown.
    unfold filterTests. destruct tests as [ts|]; [|reflexivity].
    cbn [default from_option id] in Hown.
    now rewrite (filterTests_all_included parentSuites ts [] st Hown).
  - apply Forall_app in Hall as [Hown Hchildren]. rewrite Forall_map in Hown.
    pose proof (forEachChild_all_included parentSuites cs IH) as Hcs.
    unfold filterTests. destruct tests as [ts|].
    + cbn [default from_option id] in Hown.
      rewrite (filterTests_all_included parentSuites ts [] st Hown). cbn [app].
      specialize (Hcs st Hchildren). destruct (forEachChild _ cs st) as [cs' st2].
      cbn [fst] in Hcs. now subst.
    + specialize (Hcs st Hchildren). destruct (forEachChild _ cs st) as [cs' st2].
      cbn [fst] in Hcs. now subst.
Qed.

(** X6. The filter removes tests only: the pruned tree has the same
    suites, blocklisted ones included, with the same titles and files
    at the same places; the tests left are a sublist of the tests of
    the tree, in their order; the selection is not touched. *)
Theorem filter_removes_tests_only (parentSuites : list string) (suite : Suite)
    (st : RunnerState) :
  let r := filterSpecs parentSuites suite st in
  map suiteKey (allSuites parentSuites r.1) = map suiteKey (allSuites parentSuites suite) /\
  allTests parentSuites r.1 `sublist_of` allTests parentSuites suite /\
  testlocator r.2 = testlocator st.
Proof.
  intros r. subst r.
  destruct (filterSpecs_spec suite parentSuites st) as (_ & Hrun & (_ & _ & Hsel) & Hkeys).
  split; [exact Hkeys|]. split; [|exact Hsel].
  rewrite Hrun. apply sublist_filter.
Qed.

(** X7. Filtering is idempotent on the tree: a second run of the filter
    over a pruned tree, with the selection unchanged, returns the tree
    as it is and records no test, but records every blocklisted suite
    once more. *)
Theorem filter_again_keeps_tree (parentSuites : list string) (suite : Suite)
    (st : RunnerState) :
  let r1 := filterSpecs parentSuites suite st in
  let r2 := filterSpecs parentSuites r1.1 r1.2 in
  r2.1 = r1.1 /\
  recordedTests r1.2 r2.2 = [] /\
  recordedSuites r1.2 r2.2 = recordedSuites st r1.2.
Proof.
  intros r1 r2. subst r2 r1.
  destruct (filterSpecs_spec suite parentSuites st) as (_ & Hrun & Hext & Hkeys).
  assert (Hsel : testlocator (filterSpecs parentSuites suite st).2 = testlocator st)
    by apply Hext.
  destruct (filterSpecs_spec (filterSpecs parentSuites suite st).1 parentSuites
              (filterSpecs parentSuites suite st).2) as (_ & _ & Hext2 & _).
  rewrite Hsel in Hext2. unfold testsWith in Hext2. rewrite Hrun in Hext2.
  unfold testsWith in Hext2.
  rewrite filter_filter_other in Hext2 by (intros x ->; discriminate).
  unfold blockedSuites in Hext2. rewrite (blockedSuites_keys _ _ Hkeys) in Hext2.
  split; [|split].
  - apply filterSpecs_all_included. rewrite Hsel, Hrun. unfold testsWith.
    apply Forall_forall. intros pt Hpt. now apply list_elem_of_filter in Hpt as [? _].
  - exact (recordedTests_extends _ _ _ _ Hext2).
  - rewrite (recordedSuites_extends _ _ _ _ Hext2).
    symmetry. exact (recordedSuites_extends _ _ _ _ Hext).
Qed.

Lemma filter_iff {A} (P Q : A -> Prop) `{!forall x, Decision (P x)}
    `{!forall x, Decision (Q x)} (l : list A) :
  (forall x, P x <-> Q x) -> filter P l = filter Q l.
Proof.
  intros Hiff. induction l as [|x l IH]; [reflexivity|].
  rewrite !filter_cons, IH.
  destruct (decide (P x)) as [HP|HP], (decide (Q x)) as [HQ|HQ];
    try reflexivity; exfalso; apply Hiff in HP || apply Hiff in HQ; contradiction.
Qed.

(** X9. Without an explicit selection no test is dropped: the tests
    left in the tree are the tests whose locator does not match the
    blocklist predicate, the tests recorded as blocklisted are those
    whose locator matches it, and the two together are the tests of the
    tree. *)
Theorem run_everything_drops_nothing (parentSuites : list string) (suite : Suite)
    (st : RunnerState) :
  size (testlocator st) = 0 ->
  let r := filterSpecs parentSuites suite st in
  allTests parentSuites r.1
    = filter (fun pt => isBlocklistedLocator (locatorOfTest pt) = false)
        (allTests parentSuites suite) /\
  recordedTests st r.2
    = map blocklistedResult
        (filter (fun pt => isBlocklistedLocator (locatorOfTest pt) = true)
           (allTests parentSuites suite)) /\
  Permutation (allTests parentSuites suite)
    (allTests parentSuites r.1 ++
     filter (fun pt => isBlocklistedLocator (locatorOfTest pt) = true)
       (allTests parentSuites suite)).
Proof.
  intros Hsize r. subst r.
  destruct (filterSpecs_spec suite parentSuites st) as (_ & Hrun & Hext & _).
  assert (Hd : forall pt,
    disposition (testlocator st) pt.1 pt.2
    = if isBlocklistedLocator (locatorOfTest pt) then Blocked else Include).
  { intros pt. unfold disposition, locatorOfTest.
    rewrite bool_decide_eq_false_2 by lia. reflexivity. }
  assert (Hinc : testsWith Include (testlocator st) parentSuites suite
    = filter (fun pt => isBlocklistedLocator (locatorOfTest pt) = false)
        (allTests parentSuites suite)).
  { apply filter_iff. intros pt. rewrite Hd.
    destruct (isBlocklistedLocator _); split; congruence. }
  assert (Hblk : testsWith Blocked (testlocator st) parentSuites suite
    = filter (fun pt => isBlocklistedLocator (locatorOfTest pt) = true)
        (allTests parentSuites suite)).
  { apply filter_iff. intros pt. rewrite Hd.
    destruct (isBlocklistedLocator _); split; congruence. }
  rewrite Hrun, (recordedTests_extends _ _ _ _ Hext), Hinc, Hblk.
  split; [reflexivity|]. split; [reflexivity|].
  rewrite Permutation_app_comm.
  rewrite (filter_iff (fun pt => isBlocklistedLocator (locatorOfTest pt) = false)
             (fun pt => ~ isBlocklistedLocator (locatorOfTest pt) = true)).
  - symmetry. apply filter_app_complement.
  - intros pt. destruct (isBlocklistedLocator _); split; congruence.
Qed.

(** X10. With an explicit selection, the tests left in the tree are
    exactly the tests of the tree whose serialized locator is in the
    selection and does not match the blocklist predicate. *)
Theorem selection_keeps_selected_tests (parentSuites : list string) (suite : Suite)
    (st : RunnerState) (pt : list string * MochaTest) :
  0 < size (testlocator st) ->
  In pt (allTests parentSuites (filterSpecs parentSuites suite st).1) <->
  In pt (allTests parentSuites suite) /\
  locatorToString (locatorOfTest pt) ∈ testlocator st /\
  isBlocklistedLocator (locatorOfTest pt) = false.
Proof.
  intros Hsize.
  destruct (filterSpecs_spec suite parentSuites st) as (_ & -> & _).
  unfold testsWith. rewrite <- !list_elem_of_In, list_elem_of_filter.
  unfold disposition. fold (locatorOfTest pt).
  rewrite bool_decide_eq_true_2 by exact Hsize.
  destruct (bool_decide_reflect (locatorToString (locatorOfTest pt) ∈ testlocator st))
    as [Hsel|Hsel];
    destruct (isBlocklistedLocator (locatorOfTest pt)); split;
    first [ tauto | intros [Hd _]; discriminate Hd | intros (_ & _ & Hb); discriminate Hb ].
Qed.

End FilterProperties.

(** ** The fields of the runner across passes *)
Section RunnerInvariants.
Context {core : Core}.

Lemma recordBlocklistedTest_consistent r st :
  locatorsConsistent st -> locatorsConsistent (recordBlocklistedTest r st).
Proof.
  unfold locatorsConsistent, recordBlocklistedTest.
  cbn [blockListedLocators blocklistedTests]. intros ->.
  rewrite map_app. cbn [map]. rewrite list_to_set_snoc_L. apply (comm_L (∪)).
Qed.

Lemma filterTest_consistent parentSuites filteredTests st test :
  locatorsConsistent st ->
  locatorsConsistent (filterTest parentSuites (filteredTests, st) test).2.
Proof.
  intros H. rewrite filterTest_disposition.
  destruct (disposition _ _ _); cbn [snd]; auto using recordBlocklistedTest_consistent.
Qed.

Lemma filterTests_consistent parentSuites ts : forall filteredTests st,
  locatorsConsistent st ->
  locatorsConsistent (fold_left (filterTest parentSuites) ts (filteredTests, st)).2.
Proof.
  induction ts as [|t ts IH]; intros filteredTests st H; [exact H|].
  cbn [fold_left].
  pose proof (filterTest_consistent parentSuites filteredTests st t H) as H1.
  destruct (filterTest parentSuites (filteredTests, st) t) as [f1 st1]. now apply IH.
Qed.

Lemma checkSuite_consistent parentSuites c st :
  locatorsConsistent st -> locatorsConsistent (checkSuite parentSuites c st).
Proof. unfold checkSuite. now destruct (isBlocklistedLocator _). Qed.

Lemma forEachChild_consistent parentSuites cs :
  Forall filterSpecs_keeps_consistent cs ->
  forall st, locatorsConsistent st ->
  locatorsConsistent
    (forEachChild
       (fun childSuite st0 =>
          filterSpecs (parentSuites ++ [suite_title childSuite]) childSuite
            (checkSuite parentSuites childSuite st0)) cs st).2.
Proof.
  induction 1 as [|c cs Hc _ IH]; intros st H; [exact H|].
  cbn [forEachChild].
  specialize (Hc (parentSuites ++ [suite_title c]) (checkSuite parentSuites c st)
                (checkSuite_consistent parentSuites c st H)).
  destruct (filterSpecs _ c _) as [c' st1]. cbn [snd] in Hc.
  specialize (IH st1 Hc). now destruct (forEachChild _ cs st1).
Qed.

Lemma filterSpecs_consistent s : filterSpecs_keeps_consistent s.
Proof.
  induction s as [title file tests|title file tests cs IH] using Suite_tree_ind;
    intros parentSuites st H; cbn [filterSpecs]; unfold filterTests.
  - destruct tests as [ts|]; [|exact H].
    pose proof (filterTests_consistent parentSuites ts [] st H) as H1.
    now destruct (fold_left _ ts _).
  - pose proof (forEachChild_consistent parentSuites cs IH) as Hcs.
    destruct tests as [ts|].
    + pose proof (filterTests_consistent parentSuites ts [] st H) as H1.
      destruct (fold_left _ ts _) as [f1 st1]. cbn [snd] in H1.
      specialize (Hcs st1 H1). now destruct (forEachChild _ cs st1).
    + specialize (Hcs st H). now destruct (forEachChild _ cs st).
Qed.

Lemma wrappedRun_consistent n : forall suite st,
  locatorsConsistent st -> locatorsConsistent (wrappedRun n suite st).2.
Proof.
  induction n as [|n IH]; intros suite st H; [exact H|].
  cbn [wrappedRun]. pose proof (filterSpecs_consistent suite [] st H) as H1.
  destruct (filterSpecs [] suite st) as [suite1 st1]. now apply IH.
Qed.


End RunnerInvariants.

(** ** The passes *)
Section PassProperties.
Context {core : Core} {engine : Engine}.

(** The process that a pass leaves, however the pass ends. *)
Lemma execute_process testFilesGlob locs p :
  let p' := (execute testFilesGlob locs p).2 in
  p' = p \/
  p' = MkProcess (world p) (setTestlocator locs (fields p)) (S (wrappers p)) \/
  exists root,
    createMochaInstance = true /\
    loadedTree testFilesGlob locs (world p) = Some root /\ p' = afterPass locs p root.
Proof.
  destruct (execute_cases testFilesGlob locs p)
    as [(_ & ->) | [(_ & _ & ->) | (Hc & root & Hload & ->)]]; cbn [snd]; eauto 6.
Qed.

Lemma execute_consistent testFilesGlob locs p :
  locatorsConsistent (fields p) ->
  locatorsConsistent (fields (execute testFilesGlob locs p).2).
Proof.
  intros H.
  destruct (execute_process testFilesGlob locs p) as [-> | [-> | (root & _ & _ & ->)]];
    [exact H | exact H |].
  unfold afterPass. cbn [fields]. now apply wrappedRun_consistent.
Qed.

Lemma runPasses_consistent testFilesGlob passes : forall executionResults p,
  locatorsConsistent (fields p) ->
  locatorsConsistent (fields (runPasses testFilesGlob passes executionResults p).2).
Proof.
  induction passes as [|locs passes IH]; intros executionResults p H; [exact H|].
  cbn [runPasses]. pose proof (execute_consistent testFilesGlob locs p H) as H1.
  destruct (execute testFilesGlob locs p) as [[result|e] p']; [now apply IH | exact H1].
Qed.

(** X8. The set [_blockListedLocators] and the array [_blocklistedTests]
    stay in step: in a new runner, and after any run of [executeTests]
    from a process in which it holds, the set is exactly the set of the
    serialized locators of the recorded blocklisted tests. *)
Theorem blocklisted_locators_match_tests (testFilesGlob : list string)
    (locatorSet : option (list LocatorSet)) :
  locatorsConsistent newRunner /\
  forall p, locatorsConsistent (fields p) ->
            locatorsConsistent (fields (executeTests testFilesGlob locatorSet p).2).
Proof.
  split; [reflexivity|]. intros p H. destruct locatorSet as [sets|]; cbn [executeTests].
  - rewrite executeSets_runPasses. now apply runPasses_consistent.
  - pose proof (execute_consistent testFilesGlob [] p H) as H1.
    now destruct (execute testFilesGlob [] p) as [[result|e] p'].
Qed.

Lemma schedule_nothing sets :
  Forall (fun set => (numberofexecutions set <= 0)%Z) sets -> schedule sets = [].
Proof.
  induction 1 as [|set sets Hset _ IH]; [reflexivity|].
  cbn [schedule flat_map]. fold (schedule sets). rewrite IH.
  replace (Z.to_nat (numberofexecutions set)) with 0 by lia. reflexivity.
Qed.

(** X11. When the locator file yields no locator set, or only sets
    whose number of executions is zero or negative, no pass is run: the
    report is empty and the process is as before. *)
Theorem no_executions_no_pass (testFilesGlob : list string) (sets : list LocatorSet)
    (p : Process) :
  Forall (fun set => (numberofexecutions set <= 0)%Z) sets ->
  executeTests testFilesGlob (Some sets) p = (inl [], p).
Proof.
  intros H. cbn [executeTests]. rewrite executeSets_runPasses, schedule_nothing by exact H.
  reflexivity.
Qed.

(** X12. With locators given, the glob pattern plays no part in a
    pass: the files are those of the locators, whatever the pattern. *)
Theorem glob_ignored_with_locators (testFilesGlob testFilesGlob' locs : list string)
    (p : Process) :
  locs <> [] ->
  execute testFilesGlob locs p = execute testFilesGlob' locs p.
Proof.
  intros Hne. unfold execute. cbn [setTestlocator testlocator].
  assert (Hsize : size (list_to_set (C:=gset string) locs) <> 0).
  { destruct locs as [|x locs]; [contradiction|].
    intros H. apply size_empty_iff in H. set_solver. }
  rewrite !bool_decide_eq_false_2 by exact Hsize. reflexivity.
Qed.


Lemma runPasses_wrappers testFilesGlob passes : forall executionResults p,
  wrappers p <= wrappers (runPasses testFilesGlob passes executionResults p).2
    <= wrappers p + length passes.
Proof.
  induction passes as [|locs passes IH]; intros executionResults p; [cbn; lia|].
  cbn [runPasses length].
  assert (Hw : wrappers p <= wrappers (execute testFilesGlob locs p).2 <= S (wrappers p)).
  { destruct (execute_process testFilesGlob locs p) as [-> | [-> | (root & _ & _ & ->)]];
      cbn [wrappers afterPass]; lia. }
  destruct (execute testFilesGlob locs p) as [[result|e] p']; cbn [snd] in *; [|lia].
  specialize (IH (executionResults ++ [result]) p'). lia.
Qed.

(** X14. Every pass puts one more wrapper around the engine's [run],
    so the pass of a process that has run [k] passes before runs the
    filter [k + 1] times on the tree that it loads: it records each
    blocklisted suite of the tree [k + 1] times and each blocklisted
    test of the selection once. After [executeTests] has returned, the
    number of wrappers has grown by the number of passes; it never
    grows by more. *)
Theorem pass_records_suites_once_per_wrapper (testFilesGlob locs : list string)
    (sets : list LocatorSet) (p : Process) (root : Suite) :
  createMochaInstance = true ->
  loadedTree testFilesGlob locs (world p) = Some root ->
  let e := execute testFilesGlob locs p in
  recordedSuites (fields p) (fields e.2)
    = concat (repeat (map blocklistedSuiteResult (blockedSuites [] root))
                (S (wrappers p))) /\
  recordedTests (fields p) (fields e.2)
    = map blocklistedResult (testsWith Blocked (list_to_set locs) [] root) /\
  wrappers e.2 = S (wrappers p) /\
  (forall report p',
     executeTests testFilesGlob (Some sets) p = (inl report, p') ->
     wrappers p' = wrappers p + length (schedule sets)) /\
  wrappers (executeTests testFilesGlob (Some sets) p).2
    <= wrappers p + length (schedule sets).
Proof.
  intros Hc Hload e.
  assert (He : e.2 = afterPass locs p root).
  { subst e. destruct (execute_cases testFilesGlob locs p)
      as [(Hc' & _) | [(_ & Hload' & _) | (_ & root' & Hload' & ->)]]; [congruence..|].
    cbn [snd]. congruence. }
  destruct (afterPass_fields locs p root) as (Ht & Hs & _ & Hw).
  rewrite He. unfold recordedSuites, recordedTests.
  rewrite Ht, Hs, !drop_app_length.
  split; [reflexivity|]. split; [reflexivity|]. split; [exact Hw|]. split.
  - intros report p' H. cbn [executeTests] in H. rewrite executeSets_runPasses in H.
    apply runPasses_returns in H as (results & _ & H).
    now apply passesRun_length in H.
  - cbn [executeTests]. rewrite executeSets_runPasses. apply runPasses_wrappers.
Qed.

Lemma execute_prefix testFilesGlob locs p :
  blocklistedTests (fields p)
    `prefix_of` blocklistedTests (fields (execute testFilesGlob locs p).2) /\
  blocklistedSuites (fields p)
    `prefix_of` blocklistedSuites (fields (execute testFilesGlob locs p).2).
Proof.
  destruct (execute_process testFilesGlob locs p) as [-> | [-> | (root & _ & _ & ->)]];
    [split; reflexivity | split; reflexivity |].
  destruct (afterPass_fields locs p root) as (-> & -> & _).
  split; now apply prefix_app_r.
Qed.

Lemma runPasses_prefix testFilesGlob passes : forall executionResults p,
  blocklistedTests (fields p)
    `prefix_of`
    blocklistedTests (fields (runPasses testFilesGlob passes executionResults p).2) /\
  blocklistedSuites (fields p)
    `prefix_of`
    blocklistedSuites (fields (runPasses testFilesGlob passes executionResults p).2).
Proof.
  induction passes as [|locs passes IH]; intros executionResults p; [split; reflexivity|].
  cbn [runPasses]. destruct (execute_prefix testFilesGlob locs p) as [Ht Hs].
  destruct (execute testFilesGlob locs p) as [[result|e] p']; cbn [snd] in *; [|auto].
  destruct (IH (executionResults ++ [result]) p') as [IHt IHs].
  split; etrans; eassumption.
Qed.

(** X15. The accumulators are only appended to: whatever
    [executeTests] runs, the blocklisted test results and the
    blocklisted suite results that the runner held before are an
    initial part, unchanged and in order, of what it holds after. *)
Theorem accumulators_only_grow (testFilesGlob : list string)
    (locatorSet : option (list LocatorSet)) (p : Process) :
  blocklistedTests (fields p)
    `prefix_of` blocklistedTests (fields (executeTests testFilesGlob locatorSet p).2) /\
  blocklistedSuites (fields p)
    `prefix_of` blocklistedSuites (fields (executeTests testFilesGlob locatorSet p).2).
Proof.
  destruct locatorSet as [sets|]; cbn [executeTests].
  - rewrite executeSets_runPasses. apply runPasses_prefix.
  - pose proof (execute_prefix testFilesGlob [] p) as H.
    now destruct (execute testFilesGlob [] p) as [[result|e] p'].
Qed.

End PassProperties.

(** ** The commands *)
Section CommandProperties.
Context {core : Core} {engine : Engine} {host : Host} {transport : Transport}.

Lemma postTestList_posts result :
  let r := postTestList result in
  (r.1 = [] \/ r.1 = [(postTestListEndpoint, TestList result)] /\ postTestListEndpoint <> "") /\
  (forall returned, r.2 = inl returned -> returned = result).
Proof.
  unfold postTestList. case_bool_decide as Hend.
  - cbn. split; [now left | now intros ? [= <-]].
  - destruct (makeApiRequestPost _ _); cbn; (split; [now right|]);
      [discriminate | now intros ? [= <-]].
Qed.


(** X16. [discoverTests] makes at most one request, and only with the
    graph of a completed walk: what it posts holds one suite node per
    suite of the loaded tree, in pre-order, and the test nodes of the
    whole tree after the treatment of duplicates. When the loaded tree
    lacks an array somewhere, the call throws and posts nothing; a
    result that is returned is the one that was posted. *)
Theorem discovery_posts_whole_graph_or_nothing (argv : Argv) :
  let r := discoverTests argv in
  (r.1 = [] \/
   exists root impacted,
     loadTree (resolveGlob (pattern argv)) = Some root /\
     hasArrays root = true /\
     postTestListEndpoint <> "" /\
     r.1 = [(postTestListEndpoint,
             TestList
               (fillTotalTests
                  (MkDiscoveryResult
                     (handleDuplicateTestNodes (testsOf (walkLog [] root)))
                     (map suiteNode (allSuites [] root)) impacted repoID commitID
                     buildID taskID orgID branch (bool_decide (is_Some (diff argv)))
                     parallelism)))]) /\
  (forall root,
     loadTree (resolveGlob (pattern argv)) = Some root -> hasArrays root = false ->
     r.1 = [] /\ exists e, r.2 = inr e) /\
  (forall result,
     r.2 = inl result -> postTestListEndpoint <> "" ->
     r.1 = [(postTestListEndpoint, TestList result)]).
Proof.
  intros r. subst r. unfold discoverTests.
  destruct createMochaInstance; cbn [negb];
    [|split; [now left|]; split; [eauto | discriminate]].
  destruct (validateDiscoveryEnv argv); cbn [negb];
    [|split; [now left|]; split; [eauto | discriminate]].
  destruct (listDependencies _) as [deps|];
    [|split; [now left|]; split; [eauto | discriminate]].
  destruct (loadTree _) as [root|];
    [|split; [now left|]; split; [discriminate | discriminate]].
  pose proof (proj1 (walk_outcome root (MkWState [] []))) as Hok.
  pose proof (walk_spec root (MkWState [] [])) as Hlog.
  unfold discover in *. destruct (listTestsAndTestSuites root _) as [walked [|]].
  - destruct Hlog as [_ Hlog]. cbn [emitted ancestorTitles app] in Hlog.
    rewrite Hlog, walkLog_testSuites.
    set (result := fillTotalTests _).
    destruct (postTestList_posts result) as [Hposts Hret].
    split; [|split].
    + destruct Hposts as [Hnil | [Hposts Hend]]; [now left | right].
      exists root. eexists. rewrite (Hok eq_refl). repeat split; [exact Hend | exact Hposts].
    + intros root' [= <-] Harr. rewrite (Hok eq_refl) in Harr. discriminate.
    + intros returned Hr Hend. apply Hret in Hr as ->.
      destruct Hposts as [Hnil | [Hposts _]]; [|exact Hposts].
      unfold postTestList in Hnil. rewrite bool_decide_eq_false_2 in Hnil by exact Hend.
      destruct (makeApiRequestPost _ _); discriminate.
  - split; [now left|]. split; [eauto | discriminate].
Qed.

(** X17. [executeTests] validates before it does anything: when the
    validation throws, no pass is run and nothing is posted. When a
    pass throws, the command throws the same error and nothing is
    posted. Otherwise it makes at most one request, after its last
    pass, with the report of all the passes; an empty locator file name
    counts as none, and a failing request throws without undoing the
    passes. *)
Theorem execution_posts_whole_report (argv : Argv) (p : Process) :
  let r := executeTestsCommand argv p in
  (validateExecutionEnv argv = false -> r = ([], inr ValidationError, p)) /\
  (r.1.1 = [] \/
   exists locatorSet report,
     locatorSetsOf argv = inl locatorSet /\
     postTestResultsEndpoint <> "" /\
     (executeTests (pattern argv) locatorSet p).1 = inl report /\
     r.1.1 = [(postTestResultsEndpoint, TestResults report)] /\
     r.2 = (executeTests (pattern argv) locatorSet p).2) /\
  (forall locatorSet e,
     validateExecutionEnv argv = true ->
     locatorSetsOf argv = inl locatorSet ->
     (executeTests (pattern argv) locatorSet p).1 = inr e ->
     r = ([], inr e, (executeTests (pattern argv) locatorSet p).2)) /\
  (locatorFile argv = Some "" -> locatorSetsOf argv = inl None).
Proof.
  intros r. subst r. unfold executeTestsCommand. split; [|split; [|split]].
  - now intros ->.
  - destruct (validateExecutionEnv argv); cbn [negb]; [|now left].
    destruct (locatorSetsOf argv) as [locatorSet|e]; [|now left].
    destruct (executeTests (pattern argv) locatorSet p) as [[report|e] p'] eqn:He;
      [|now left].
    case_bool_decide as Hend; [now left|].
    right. exists locatorSet, report. rewrite He.
    destruct (makeApiRequestPost _ _); cbn; auto.
  - intros locatorSet e -> -> He. cbn [negb].
    destruct (executeTests (pattern argv) locatorSet p) as [[report|e'] p'];
      cbn [fst snd] in *; congruence.
  - unfold locatorSetsOf. now intros ->.
Qed.


End CommandProperties.

(** ** The options of the engine *)
Section OptionProperties.
Context {config : MochaConfig}.

Lemma splitOn_nonempty sep s : splitOn sep s <> [].
Proof.
  destruct s as [|c s]; cbn [splitOn]; [discriminate|].
  case_bool_decide; [discriminate|]. destruct (splitOn sep s); discriminate.
Qed.

Lemma join_String sep c seg segs :
  join sep (String c seg :: segs) = String c (join sep (seg :: segs)).
Proof. destruct segs; reflexivity. Qed.

Lemma join_splitOn (old new : ascii) s :
  join (String new "") (splitOn old s) = replaceChar old new s.
Proof.
  induction s as [|c s IH]; [reflexivity|]. cbn [splitOn replaceChar].
  pose proof (splitOn_nonempty old s) as Hne.
  case_bool_decide.
  - destruct (splitOn old s) as [|seg segs] eqn:E; [contradiction|].
    rewrite join_cons, IH. reflexivity.
  - destruct (splitOn old s) as [|seg segs] eqn:E; [contradiction|].
    now rewrite join_String, IH.
Qed.

Lemma replaceChar_newlineFree s : newlineFree (replaceChar "010" " " s).
Proof.
  induction s as [|c s IH]; [exact I|]. cbn [replaceChar newlineFree].
  split; [|exact IH]. case_bool_decide; [discriminate | assumption].
Qed.

Lemma replaceChar_length old new s :
  String.length (replaceChar old new s) = String.length s.
Proof. induction s as [|c s IH]; cbn; [reflexivity | now rewrite IH]. Qed.

(** X19. When the loader of Mocha 6 is not available and the options
    file exists, the options are parsed from the content of the file
    with every line feed replaced by one space: a text of the same
    length without a line feed, nothing else changed. The file is the
    one named by [argv.config], or [./test/mocha.opts] without it, and
    the warning is written. *)
Theorem legacy_options_lines_joined (argvConfig : option string) :
  loadOptions match argvConfig with Some file => ["--config"; file] | None => [] end
    = None ->
  existsSync (default "./test/mocha.opts" argvConfig) = true ->
  let content := readFileSync (default "./test/mocha.opts" argvConfig) in
  getFilteredConfigs argvConfig = (parseOptions (replaceChar "010" " " content), true) /\
  newlineFree (replaceChar "010" " " content) /\
  String.length (replaceChar "010" " " content) = String.length content.
Proof.
  intros Hload Hexists content. unfold getFilteredConfigs.
  rewrite Hload, Hexists. fold content.
  change " " with (String " "%char "") at 1. rewrite join_splitOn.
  split; [reflexivity|]. split; [apply replaceChar_newlineFree | apply replaceChar_length].
Qed.

End OptionProperties.

(** ** The further properties on concrete trees *)
Section WalkExamples.
#[local] Existing Instance Sample.nothingBlocked.

(** X2 on the tree of the scenario. *)
Lemma discover_emits_each_node_once_witness :
  (discover Sample.tree).2 = Ok /\
  testSuitesOf (emitted (discover Sample.tree).1)
    = map suiteNode (allSuites [] Sample.tree).
Proof.
  assert (H : (discover Sample.tree).2 = Ok) by (vm_compute; reflexivity).
  split; [exact H|].
  exact (proj1 (discover_emits_each_node_once Sample.tree H)).
Defined.

(** X3 on a tree with a nested suite: the node of "x" comes after the
    node of "S", whose id is its parent id. *)
Lemma parent_ids_resolve_witness :
  suiteFilesAgree Fixture.twinTree /\
  emitted (discover Fixture.twinTree).1
    = [EmitSuite (suiteNode ([], Fixture.outerSuite))]
        ++ EmitSuite (suiteNode (["S"], Fixture.twinSuite))
        :: [EmitTest (testNode (["S"], MkTest "x" (Some "a.js")))] /\
  ts_parentSuiteID (suiteNode (["S"], Fixture.twinSuite))
    = Some (ts_id (suiteNode ([], Fixture.outerSuite))) /\
  exists sn,
    In sn (testSuitesOf [EmitSuite (suiteNode ([], Fixture.outerSuite))]) /\
    ts_id sn = ts_id (suiteNode ([], Fixture.outerSuite)).
Proof.
  assert (Hfiles : suiteFilesAgree Fixture.twinTree).
  { unfold suiteFilesAgree. cbn. repeat constructor. }
  assert (Hlog : emitted (discover Fixture.twinTree).1
    = [EmitSuite (suiteNode ([], Fixture.outerSuite))]
        ++ EmitSuite (suiteNode (["S"], Fixture.twinSuite))
        :: [EmitTest (testNode (["S"], MkTest "x" (Some "a.js")))])
    by (vm_compute; reflexivity).
  assert (Hparent : ts_parentSuiteID (suiteNode (["S"], Fixture.twinSuite))
                    = Some (ts_id (suiteNode ([], Fixture.outerSuite))))
    by (vm_compute; reflexivity).
  split; [exact Hfiles|]. split; [exact Hlog|]. split; [exact Hparent|].
  exact (parent_ids_resolve Fixture.twinTree _ _ _ _ Hfiles Hlog Hparent).
Defined.

(** X4 on the suite "x" and the test "x" of the suite "S". *)
Lemma suite_and_test_share_identifier_witness :
  (discover Fixture.twinTree).2 = Ok /\
  In (["S"], Fixture.twinSuite) (allSuites [] Fixture.twinTree) /\
  In (["S"], MkTest "x" (Some "a.js")) (allTests [] Fixture.twinTree) /\
  ["S"] <> [] /\
  suite_title Fixture.twinSuite = "x" /\
  orEmpty (suite_file Fixture.twinSuite) = orEmpty (Some "a.js") /\
  ts_id (suiteNode (["S"], Fixture.twinSuite))
    = t_id (testNode (["S"], MkTest "x" (Some "a.js"))).
Proof.
  assert (Hok : (discover Fixture.twinTree).2 = Ok) by (vm_compute; reflexivity).
  assert (Hps : In (["S"], Fixture.twinSuite) (allSuites [] Fixture.twinTree))
    by (cbn; auto).
  assert (Hpt : In (["S"], MkTest "x" (Some "a.js")) (allTests [] Fixture.twinTree))
    by (cbn; auto).
  assert (Hne : ["S"] <> []) by discriminate.
  split; [exact Hok|]. split; [exact Hps|]. split; [exact Hpt|]. split; [exact Hne|].
  split; [reflexivity|]. split; [reflexivity|].
  exact (proj2 (proj2
           (suite_and_test_share_identifier Fixture.twinTree
              (["S"], Fixture.twinSuite) (["S"], MkTest "x" (Some "a.js"))
              Hok Hps Hpt Hne eq_refl eq_refl eq_refl))).
Defined.

(** X5 on the tree of the scenario. *)
Lemma identifiers_are_32_hex_digits_witness :
  (discover Sample.tree).2 = Ok /\
  Forall (fun n => String.length (ts_id n) = 32 /\ allHex (ts_id n) = true)
    (testSuitesOf (emitted (discover Sample.tree).1)).
Proof.
  assert (H : (discover Sample.tree).2 = Ok) by (vm_compute; reflexivity).
  split; [exact H|].
  exact (proj1 (identifiers_are_32_hex_digits Sample.tree H)).
Defined.

End WalkExamples.

Section FilterExamples.
#[local] Existing Instance Sample.failsBlocked.

(** X9 on the tree of the scenario with a new runner. *)
Lemma run_everything_drops_nothing_witness :
  size (testlocator newRunner) = 0 /\
  allTests [] (filterSpecs [] Sample.tree newRunner).1
    = filter (fun pt => isBlocklistedLocator (locatorOfTest pt) = false)
        (allTests [] Sample.tree).
Proof.
  assert (H : size (testlocator newRunner) = 0) by reflexivity.
  split; [exact H|].
  exact (proj1 (run_everything_drops_nothing [] Sample.tree newRunner H)).
Defined.

(** X10 on a selection that holds "health check" alone. *)
Lemma selection_keeps_selected_tests_witness :
  0 < size (testlocator (setTestlocator ["b.js##health check"] newRunner)) /\
  (In Sample.healthCheck
     (allTests []
        (filterSpecs [] Sample.tree
           (setTestlocator ["b.js##health check"] newRunner)).1) <->
   In Sample.healthCheck (allTests [] Sample.tree) /\
   locatorToString (locatorOfTest Sample.healthCheck)
     ∈ testlocator (setTestlocator ["b.js##health check"] newRunner) /\
   isBlocklistedLocator (locatorOfTest Sample.healthCheck) = false).
Proof.
  assert (H : 0 < size (testlocator (setTestlocator ["b.js##health check"] newRunner)))
    by (vm_compute; lia).
  split; [exact H|].
  exact (selection_keeps_selected_tests [] Sample.tree _ Sample.healthCheck H).
Defined.

End FilterExamples.

Section PassExamples.
#[local] Existing Instance Sample.loginBlocked.
#[local] Existing Instance Sample.loginEngine.

(** X11 on two sets that ask for no execution. *)
Lemma no_executions_no_pass_witness :
  Forall (fun set => (numberofexecutions set <= 0)%Z)
    [MkLocatorSet 0 ["b.js##health check"]; MkLocatorSet (-2) ["a.js##Login##fails"]] /\
  executeTests ["*.js"]
    (Some [MkLocatorSet 0 ["b.js##health check"]; MkLocatorSet (-2) ["a.js##Login##fails"]])
    (newProcess tt)
  = (inl [], newProcess tt).
Proof.
  assert (H : Forall (fun set => (numberofexecutions set <= 0)%Z)
                [MkLocatorSet 0 ["b.js##health check"];
                 MkLocatorSet (-2) ["a.js##Login##fails"]]).
  { repeat constructor; cbn; lia. }
  split; [exact H|].
  exact (no_executions_no_pass ["*.js"] _ (newProcess tt) H).
Defined.

(** X12 on a pass with one locator and two different patterns. *)
Lemma glob_ignored_with_locators_witness :
  ["b.js##health check"] <> [] /\
  execute ["*.js"] ["b.js##health check"] (newProcess tt)
  = execute ["test/**/*.ts"] ["b.js##health check"] (newProcess tt).
Proof.
  assert (H : ["b.js##health check"] <> []) by discriminate.
  split; [exact H|].
  exact (glob_ignored_with_locators ["*.js"] ["test/**/*.ts"] _ (newProcess tt) H).
Defined.


(** X14 on the second pass of a process: the blocklisted suite "Login"
    is recorded twice. *)
Lemma pass_records_suites_once_per_wrapper_witness :
  createMochaInstance = true /\
  loadedTree ["*.js"] ["b.js##health check"]
    (world (execute ["*.js"] ["b.js##health check"] (newProcess tt)).2)
    = Some Sample.tree /\
  wrappers (execute ["*.js"] ["b.js##health check"] (newProcess tt)).2 = 1 /\
  recordedSuites
    (fields (execute ["*.js"] ["b.js##health check"] (newProcess tt)).2)
    (fields
       (execute ["*.js"] ["b.js##health check"]
          (execute ["*.js"] ["b.js##health check"] (newProcess tt)).2).2)
  = concat
      (repeat (map blocklistedSuiteResult (blockedSuites [] Sample.tree))
         (S (wrappers (execute ["*.js"] ["b.js##health check"] (newProcess tt)).2))).
Proof.
  assert (Hc : createMochaInstance = true) by reflexivity.
  assert (Hload : loadedTree ["*.js"] ["b.js##health check"]
                    (world (execute ["*.js"] ["b.js##health check"] (newProcess tt)).2)
                  = Some Sample.tree) by reflexivity.
  split; [exact Hc|]. split; [exact Hload|]. split; [vm_compute; reflexivity|].
  exact (proj1 (pass_records_suites_once_per_wrapper ["*.js"] ["b.js##health check"] []
                  _ Sample.tree Hc Hload)).
Defined.

End PassExamples.

Section OptionExamples.
#[local] Existing Instance Fixture.legacyConfig.

(** X19 on an options file of two lines, without [argv.config]. *)
Lemma legacy_options_lines_joined_witness :
  loadOptions [] = None /\
  existsSync (default "./test/mocha.opts" None) = true /\
  getFilteredConfigs None = (["--timeout 5000 --recursive"], true).
Proof.
  assert (Hload : loadOptions [] = None) by reflexivity.
  assert (Hexists : existsSync (default "./test/mocha.opts" None) = true) by reflexivity.
  split; [exact Hload|]. split; [exact Hexists|].
  exact (proj1 (legacy_options_lines_joined None Hload Hexists)).
Defined.

End OptionExamples.
